(** * Balma website: a shallow embedding of [script.js]

    The script is event wiring over the DOM.  Every handler the properties
    below talk about is embedded as a function on an explicit state: the
    module-level [let] variables of the script together with the part of
    the DOM (class lists, attributes, inline styles, timers) the handler
    reads or writes.  Definitions keep the names of the script. *)

From Stdlib Require Import ZArith QArith List Bool Lia String Ascii.
From stdpp Require Import base decidable option list gmap strings pretty.

Local Open Scope Z_scope.

(** ** JavaScript values *)

Module Js.

(** Numbers.  Indices and lengths are integers far below 2^53, where
    double arithmetic is exact; the only other value the index
    computations can produce is NaN (a remainder by zero). *)
Inductive number : Type :=
  | NaN
  | Int (z : Z).

Definition add (a b : number) : number :=
  match a, b with
  | Int x, Int y => Int (x + y)
  | _, _ => NaN
  end.

Definition sub (a b : number) : number :=
  match a, b with
  | Int x, Int y => Int (x - y)
  | _, _ => NaN
  end.

(** [a % b]: the result takes the sign of the dividend; [% 0] is NaN. *)
Definition rem (a b : number) : number :=
  match a, b with
  | Int x, Int y => if y =? 0 then NaN else Int (Z.rem x y)
  | _, _ => NaN
  end.

(** [a === b] on numbers: NaN is different from everything. *)
Definition strict_eq (a b : number) : bool :=
  match a, b with
  | Int x, Int y => x =? y
  | _, _ => false
  end.

Definition length {A} (l : list A) : number := Int (Z.of_nat (List.length l)).

(** [arr[i]]: [undefined] (here [None]) unless [i] is an index of [arr]. *)
Definition get {A} (arr : list A) (i : number) : option A :=
  match i with
  | Int z => if z <? 0 then None else arr !! Z.to_nat z
  | NaN => None
  end.

(** [i] is one of the indices [0 .. n-1]. *)
Definition is_index (i : number) (n : nat) : bool :=
  match i with
  | Int z => (0 <=? z) && (z <? Z.of_nat n)
  | NaN => false
  end.

(** [String(n)] for the numbers above. *)
Definition to_string (n : number) : string :=
  match n with
  | NaN => "NaN"
  | Int z => pretty z
  end.

(** What running a handler ends in. *)
Inductive completion : Type :=
  | Normal
  | Throw (e : string).

(** A DOM element, as far as the script looks at it. *)
Record element : Type := Element {
  attributes : gmap string string;
  classList : gset string
}.

Definition getAttribute (a : string) (e : element) : option string :=
  attributes e !! a.

Definition classList_add (c : string) (e : element) : element :=
  Element (attributes e) ({[ c ]} ∪ classList e).

Definition classList_remove (c : string) (e : element) : element :=
  Element (attributes e) (classList e ∖ {[ c ]}).

(** [classList.toggle(c, force)] *)
Definition classList_toggle (c : string) (force : bool) (e : element) : element :=
  if force then classList_add c e else classList_remove c e.

Definition classList_contains (c : string) (e : element) : bool :=
  bool_decide (c ∈ classList e).

End Js.

Import Js.

(** ** 5. Gallery lightbox *)

Module Lightbox.

Record image : Type := Image { src : string; alt : string }.

Record state : Type := State {
  currentImageIndex : number;
  galleryImages : list image;
  lightboxImg : image;
  lightboxCounter : string;
  lightbox_active : bool;
  body_overflow : string
}.

Definition set_index (i : number) (s : state) : state :=
  State i (galleryImages s) (lightboxImg s) (lightboxCounter s)
        (lightbox_active s) (body_overflow s).

(** [image.src] on [undefined] is a TypeError; nothing after it runs. *)
Definition updateLightboxImage (s : state) : completion * state :=
  match get (galleryImages s) (currentImageIndex s) with
  | None => (Throw "TypeError", s)
  | Some img =>
      (Normal,
       State (currentImageIndex s) (galleryImages s)
             (Image (src img) (alt img))
             (to_string (add (currentImageIndex s) (Int 1)) +:+ " / "
                +:+ to_string (Js.length (galleryImages s)))
             (lightbox_active s) (body_overflow s))
  end.

Definition showNextImage (s : state) : completion * state :=
  updateLightboxImage
    (set_index (rem (add (currentImageIndex s) (Int 1))
                    (Js.length (galleryImages s))) s).

Definition showPrevImage (s : state) : completion * state :=
  updateLightboxImage
    (set_index (rem (add (sub (currentImageIndex s) (Int 1))
                         (Js.length (galleryImages s)))
                    (Js.length (galleryImages s))) s).

Definition openLightbox (s : state) : completion * state :=
  let (c, s') :=
    updateLightboxImage
      (State (currentImageIndex s) (galleryImages s) (lightboxImg s)
             (lightboxCounter s) true (body_overflow s)) in
  match c with
  | Normal =>
      (Normal, State (currentImageIndex s') (galleryImages s') (lightboxImg s')
                     (lightboxCounter s') (lightbox_active s') "hidden")
  | Throw e => (Throw e, s')
  end.

(** The click handler of gallery item [index]. *)
Definition galleryItem_click (index : nat) (s : state) : completion * state :=
  openLightbox (set_index (Int (Z.of_nat index)) s).

Definition closeLightbox (s : state) : state :=
  State (currentImageIndex s) (galleryImages s) (lightboxImg s)
        (lightboxCounter s) false "auto".

(** The two navigation operations, for sequences of them. *)
Inductive op : Type := Next | Prev.

Definition step (o : op) (s : state) : completion * state :=
  match o with
  | Next => showNextImage s
  | Prev => showPrevImage s
  end.

(** Run the operations in order; a throw ends one handler, the page goes
    on and the next event still runs.  The result tells whether any threw. *)
Fixpoint run (os : list op) (s : state) : bool * state :=
  match os with
  | [] => (false, s)
  | o :: os' =>
      let (c, s') := step o s in
      let (t, s'') := run os' s' in
      (match c with Normal => t | Throw _ => true end, s'')
  end.

(** The index is on one of the images. *)
Definition lightbox_ok (s : state) : Prop :=
  is_index (currentImageIndex s) (List.length (galleryImages s)) = true.

End Lightbox.

(** ** 6. Storia section: image slider *)

Module Slider.

(** A running [setInterval] timer.  The only callback the slider ever
    registers is [showNextSlide], so the table does not store it.  Time is
    counted in milliseconds and timers fire exactly when due. *)
Record timer : Type := Timer { tid : nat; period : Z; due : Z }.

Record state : Type := State {
  currentSlideIndex : number;
  storiaSliderImages : list element;
  sliderDots : list element;
  sliderInterval : option nat;
  (* click listeners of the arrows and dots are installed *)
  listening : bool;
  (* the browser: clock, timer table, next timer id *)
  now : Z;
  timers : list timer;
  next_id : nat;
  (* how many times a timer has called [showNextSlide] *)
  auto_advances : nat
}.

Definition set_index (i : number) (s : state) : state :=
  State i (storiaSliderImages s) (sliderDots s) (sliderInterval s)
        (listening s) (now s) (timers s) (next_id s) (auto_advances s).

Definition set_timers (iv : option nat) (ts : list timer) (n : nat)
    (s : state) : state :=
  State (currentSlideIndex s) (storiaSliderImages s) (sliderDots s) iv
        (listening s) (now s) ts n (auto_advances s).

Definition mark (i : number) (els : list element) : list element :=
  imap (fun index el =>
          classList_toggle "active" (strict_eq (Int (Z.of_nat index)) i) el)
       els.

Definition updateSlider (s : state) : state :=
  State (currentSlideIndex s)
        (mark (currentSlideIndex s) (storiaSliderImages s))
        (mark (currentSlideIndex s) (sliderDots s))
        (sliderInterval s) (listening s) (now s) (timers s) (next_id s)
        (auto_advances s).

Definition showNextSlide (s : state) : state :=
  updateSlider
    (set_index (rem (add (currentSlideIndex s) (Int 1))
                    (Js.length (storiaSliderImages s))) s).

Definition showPrevSlide (s : state) : state :=
  updateSlider
    (set_index (rem (add (sub (currentSlideIndex s) (Int 1))
                         (Js.length (storiaSliderImages s)))
                    (Js.length (storiaSliderImages s))) s).

Definition goToSlide (index : number) (s : state) : state :=
  updateSlider (set_index index s).

(** [clearInterval(id)]: an id that names no timer (or [undefined]) is
    ignored. *)
Definition clearInterval (id : option nat) (ts : list timer) : list timer :=
  match id with
  | None => ts
  | Some i => List.filter (fun t => negb (Nat.eqb (tid t) i)) ts
  end.

(** [setInterval(showNextSlide, T)] at the current time. *)
Definition setInterval (T : Z) (s : state) : state :=
  set_timers (Some (next_id s))
             (timers s ++ [Timer (next_id s) T (now s + T)])
             (S (next_id s)) s.

Definition resetSliderInterval (s : state) : state :=
  setInterval 8000
    (set_timers (sliderInterval s) (clearInterval (sliderInterval s) (timers s))
                (next_id s) s).

(** The top-level block "start the slider if images exist", run on a page
    with the given images and dots at time [t0]. *)
Definition init (images dots : list element) (t0 : Z) : state :=
  let s0 := State (Int 0) images dots None false t0 [] 0%nat 0%nat in
  if 0 <? Z.of_nat (List.length images) then
    let s1 := setInterval 8000 s0 in
    State (currentSlideIndex s1) (storiaSliderImages s1) (sliderDots s1)
          (sliderInterval s1) true (now s1) (timers s1) (next_id s1)
          (auto_advances s1)
  else s0.

(** What can happen to the slider once the page is set up. *)
Inductive event : Type :=
  | ArrowRight
  | ArrowLeft
  | Dot (index : nat)
  | Tick.

(** One timer call of [showNextSlide]. *)
Definition fire (s : state) : state :=
  let s' := showNextSlide s in
  State (currentSlideIndex s') (storiaSliderImages s') (sliderDots s')
        (sliderInterval s') (listening s') (now s') (timers s') (next_id s')
        (S (auto_advances s')).

Definition reschedule (t_now : Z) (t : timer) : timer :=
  if due t =? t_now then Timer (tid t) (period t) (due t + period t) else t.

(** One millisecond passes: every timer due at the new time runs once and
    is due again one period later. *)
Definition tick (s : state) : state :=
  let t' := now s + 1 in
  let n := List.length (List.filter (fun t => due t =? t') (timers s)) in
  let s' := Nat.iter n fire s in
  State (currentSlideIndex s') (storiaSliderImages s') (sliderDots s')
        (sliderInterval s') (listening s') t'
        (List.map (reschedule t') (timers s')) (next_id s') (auto_advances s').

Definition handle (e : event) (s : state) : state :=
  match e with
  | ArrowRight =>
      if listening s then resetSliderInterval (showNextSlide s) else s
  | ArrowLeft =>
      if listening s then resetSliderInterval (showPrevSlide s) else s
  | Dot index =>
      if listening s && bool_decide (index < List.length (sliderDots s))%nat
      then resetSliderInterval (goToSlide (Int (Z.of_nat index)) s) else s
  | Tick => tick s
  end.

Definition run (es : list event) (s : state) : state :=
  fold_left (fun s e => handle e s) es s.

(** A click on an arrow or on an existing dot. *)
Definition is_manual (e : event) (s : state) : bool :=
  match e with
  | ArrowRight | ArrowLeft => true
  | Dot index => bool_decide (index < List.length (sliderDots s))%nat
  | Tick => false
  end.

(** The slider runs: its listeners are installed and [sliderInterval]
    names the one timer of the table, which is due at [d]. *)
Definition running (s : state) (d : Z) : Prop :=
  listening s = true
  /\ exists id, timers s = [Timer id 8000 d] /\ sliderInterval s = Some id.

(** [n] milliseconds without any interaction. *)
Definition elapse (n : nat) (s : state) : state := Nat.iter n tick s.

(** The two navigation operations alone. *)
Inductive op : Type := Next | Prev.

Definition step (o : op) (s : state) : state :=
  match o with
  | Next => showNextSlide s
  | Prev => showPrevSlide s
  end.

(** The index is on one of the slides. *)
Definition slider_ok (s : state) : Prop :=
  is_index (currentSlideIndex s) (List.length (storiaSliderImages s)) = true.

End Slider.

(** ** Strings, [trim], regular expressions and string-to-number *)

Module Str.

(** A string value is its sequence of UTF-16 code units. *)
Abbreviation ustring := (list N).

(** A source literal (ASCII) as a string value. *)
Definition lit (s : string) : ustring :=
  List.map (fun a => N.of_nat (nat_of_ascii a)) (list_ascii_of_string s).

Local Open Scope N_scope.

(** WhiteSpace and LineTerminator code points: what [trim] strips, what
    [\s] matches and what may surround a numeric string. *)
Definition is_space (c : N) : bool :=
  ((9 <=? c) && (c <=? 13)) || (c =? 32) || (c =? 160) || (c =? 5760)
  || ((8192 <=? c) && (c <=? 8202)) || (c =? 8232) || (c =? 8233)
  || (c =? 8239) || (c =? 8287) || (c =? 12288) || (c =? 65279).

Fixpoint trimStart (s : ustring) : ustring :=
  match s with
  | c :: s' => if is_space c then trimStart s' else s
  | [] => []
  end.

Definition trimEnd (s : ustring) : ustring := rev (trimStart (rev s)).

Definition trim (s : ustring) : ustring := trimEnd (trimStart s).

Definition is_empty (s : ustring) : bool :=
  match s with [] => true | _ => false end.

(** Regular expressions without flags, groups or look-around, matched
    against the whole input (the patterns of the script are of the form
    [^...$]). *)
Inductive regex : Type :=
  | Void
  | Eps
  | Class (p : N -> bool)
  | Cat (r1 r2 : regex)
  | Alt (r1 r2 : regex)
  | Star (r : regex).

Definition Plus (r : regex) : regex := Cat r (Star r).
Definition Chr (c : N) : regex := Class (N.eqb c).

Fixpoint nullable (r : regex) : bool :=
  match r with
  | Void => false
  | Eps => true
  | Class _ => false
  | Cat r1 r2 => nullable r1 && nullable r2
  | Alt r1 r2 => nullable r1 || nullable r2
  | Star _ => true
  end.

Fixpoint deriv (c : N) (r : regex) : regex :=
  match r with
  | Void => Void
  | Eps => Void
  | Class p => if p c then Eps else Void
  | Cat r1 r2 =>
      if nullable r1 then Alt (Cat (deriv c r1) r2) (deriv c r2)
      else Cat (deriv c r1) r2
  | Alt r1 r2 => Alt (deriv c r1) (deriv c r2)
  | Star r1 => Cat (deriv c r1) (Star r1)
  end.

(** [/^r$/.test(s)] *)
Definition test (r : regex) (s : ustring) : bool :=
  nullable (fold_left (fun r c => deriv c r) s r).

(** When a string is in the language of a pattern. *)
Inductive matches : regex -> ustring -> Prop :=
  | m_eps : matches Eps []
  | m_class p c : p c = true -> matches (Class p) [c]
  | m_cat r1 r2 s1 s2 :
      matches r1 s1 -> matches r2 s2 -> matches (Cat r1 r2) (s1 ++ s2)
  | m_alt_l r1 r2 s : matches r1 s -> matches (Alt r1 r2) s
  | m_alt_r r1 r2 s : matches r2 s -> matches (Alt r1 r2) s
  | m_star_nil r : matches (Star r) []
  | m_star_app r s1 s2 :
      matches r s1 -> matches (Star r) s2 -> matches (Star r) (s1 ++ s2).

(** The numbers a string can convert to.  A finite value is kept as the
    exact rational the double stands for. *)
Inductive float : Type :=
  | FNaN
  | FInf (negative : bool)
  | Fin (q : Q).

Definition digit (base : N) (c : N) : option N :=
  let v :=
    if (48 <=? c) && (c <=? 57) then Some (c - 48)
    else if (97 <=? c) && (c <=? 102) then Some (c - 87)
    else if (65 <=? c) && (c <=? 70) then Some (c - 55)
    else None in
  match v with
  | Some d => if d <? base then Some d else None
  | None => None
  end.

(** Longest prefix of digits: its value, its length, and the rest. *)
Fixpoint digits (base : N) (acc : N) (len : nat) (s : ustring)
    : N * nat * ustring :=
  match s with
  | c :: s' =>
      match digit base c with
      | Some d => digits base (acc * base + d) (S len) s'
      | None => (acc, len, s)
      end
  | [] => (acc, len, [])
  end.

(** Round a positive rational [n/d] to the nearest double, ties to even;
    [None] when it is beyond the largest double. *)
Definition round_pos (n d : positive) : option Q :=
  let e0 := (Z.log2 (Zpos n) - Z.log2 (Zpos d))%Z in
  let below :=
    (if 0 <=? e0 then Zpos n <? Zpos d * 2 ^ e0
     else Zpos n * 2 ^ (- e0) <? Zpos d)%Z in
  let e := (if below then e0 - 1 else e0)%Z in
  let p := Z.max (e - 52) (-1074) in
  let num := (if 0 <=? p then Zpos n else Zpos n * 2 ^ (- p))%Z in
  let den := (if 0 <=? p then Zpos d * 2 ^ p else Zpos d)%Z in
  let k := (num / den)%Z in
  let r := (num mod den)%Z in
  let m :=
    (if den <? 2 * r then k + 1
     else if 2 * r =? den then (if Z.even k then k else k + 1)
     else k)%Z in
  let v :=
    (if 0 <=? p then inject_Z (m * 2 ^ p)
     else Qred (Qmake m (Z.to_pos (2 ^ (- p)))))%Z in
  if Qle_bool (inject_Z (2 ^ 1024)) v then None else Some v.

Definition round (negative : bool) (q : Q) : float :=
  match Qnum q with
  | Z0 => Fin 0
  | Zpos n | Zneg n =>
      match round_pos n (Qden q) with
      | Some v => Fin (if negative then Qopp v else v)
      | None => FInf negative
      end
  end.

(** [ExponentPart_opt] followed by the end of the string. *)
Definition exponent (s : ustring) : option Z :=
  match s with
  | [] => Some 0%Z
  | c :: s' =>
      if (c =? 101) || (c =? 69) then
        let '(negative, s'') :=
          match s' with
          | 43 :: t => (false, t)
          | 45 :: t => (true, t)
          | _ => (false, s')
          end in
        match digits 10 0 0 s'' with
        | (_, O, _) => None
        | (v, _, []) => Some (if negative then (- Z.of_N v)%Z else Z.of_N v)
        | _ => None
        end
      else None
  end.

(** [StrUnsignedDecimalLiteral] *)
Definition unsigned_decimal (negative : bool) (s : ustring) : float :=
  if bool_decide (s = lit "Infinity") then FInf negative
  else
    let '(i, ilen, r1) := digits 10 0 0 s in
    let '(m, flen, r2) :=
      match r1 with
      | 46 :: t => let '(m, l, r) := digits 10 i 0 t in (m, l, r)
      | _ => (i, O, r1)
      end in
    let has_dot := match r1 with 46 :: _ => true | _ => false end in
    if Nat.eqb ilen 0 && (negb has_dot || Nat.eqb flen 0) then FNaN
    else
      match exponent r2 with
      | None => FNaN
      | Some e =>
          let e' := (e - Z.of_nat flen)%Z in
          round negative
            (if (0 <=? e')%Z then inject_Z (Z.of_N m * 10 ^ e')
             else Qmake (Z.of_N m) (Z.to_pos (10 ^ (- e'))))
      end.

(** [0x..], [0o..], [0b..]: no sign, digits to the end. *)
Definition non_decimal (base : N) (s : ustring) : float :=
  match digits base 0 0 s with
  | (_, O, _) => FNaN
  | (v, _, []) => round false (inject_Z (Z.of_N v))
  | _ => FNaN
  end.

(** [Number(s)] for a string [s] (StringToNumber). *)
Definition ToNumber (s : ustring) : float :=
  match trim s with
  | [] => Fin 0
  | 48 :: 120 :: t | 48 :: 88 :: t => non_decimal 16 t
  | 48 :: 111 :: t | 48 :: 79 :: t => non_decimal 8 t
  | 48 :: 98 :: t | 48 :: 66 :: t => non_decimal 2 t
  | 43 :: t => unsigned_decimal false t
  | 45 :: t => unsigned_decimal true t
  | t => unsigned_decimal false t
  end.

(** [x < y]; false as soon as one side is NaN. *)
Definition lt (x y : float) : bool :=
  match x, y with
  | FNaN, _ | _, FNaN => false
  | FInf true, FInf true => false
  | FInf true, _ => true
  | _, FInf true => false
  | FInf false, _ => false
  | _, FInf false => true
  | Fin a, Fin b => negb (Qle_bool b a)
  end.

Definition gt (x y : float) : bool := lt y x.

(** [x >= y] *)
Definition ge (x y : float) : bool :=
  match x, y with
  | FNaN, _ | _, FNaN => false
  | _, _ => negb (lt x y)
  end.

End Str.

Import Str.

(** ** 8. Form validation *)

Module Form.

(** [/^[^\s@]+@[^\s@]+\.[^\s@]+$/] *)
Definition not_space_at (c : N) : bool := negb (is_space c || (c =? 64)%N).

Definition emailRegex : regex :=
  Cat (Plus (Class not_space_at))
      (Cat (Chr 64)
           (Cat (Plus (Class not_space_at))
                (Cat (Chr 46) (Plus (Class not_space_at))))).

(** The six inputs the submit handler looks up by id. *)
Inductive field : Type :=
  | name | email | phone | eventDate | guests | message.

Global Instance field_eq_dec : EqDecision field.
Proof. solve_decision. Defined.

Definition all_fields : list field :=
  [name; email; phone; eventDate; guests; message].

(** The condition under which the submit handler marks a field; each
    line is the [if] of that field in the handler. *)
Definition fails (f : field) (value : ustring) : bool :=
  match f with
  | name => is_empty (trim value)
  | email => negb (test emailRegex (trim value))
  | phone => is_empty (trim value)
  | eventDate => is_empty value
  | guests => is_empty value || lt (ToNumber value) (Fin 1)
  | message => is_empty (trim value)
  end.

(** The form as the handler sees it: the value of each input, and whether
    the [.form-group] around each input carries the class [error] (every
    input sits in a group of its own). *)
Record form : Type := Form_ {
  value : field -> ustring;
  error : field -> bool
}.

Definition add_error (f : field) (err : field -> bool) : field -> bool :=
  fun g => if decide (g = f) then true else err g.

Record outcome : Type := Outcome {
  isValid : bool;
  groups : field -> bool;
  defaultPrevented : bool;
  popupShown : bool
}.

(** One "... validation" block of the handler. *)
Definition check (fm : form) (f : field) (acc : (field -> bool) * bool)
    : (field -> bool) * bool :=
  if fails f (value fm f) then (add_error f (fst acc), false) else acc.

(** The [submit] listener of the contact form. *)
Definition submit (fm : form) : outcome :=
  let cleared : field -> bool := fun _ => false in
  let acc0 := (cleared, true) in
  let acc1 := check fm name acc0 in
  let acc2 := check fm email acc1 in
  let acc3 := check fm phone acc2 in
  let acc4 := check fm eventDate acc3 in
  let acc5 := check fm guests acc4 in
  let acc6 := check fm message acc5 in
  if negb (snd acc6) then Outcome false (fst acc6) true false
  else Outcome true (fst acc6) true true.

(** An input element handed to [validateField]. *)
Record input : Type := Input {
  input_value : ustring;
  type : string;
  required : bool
}.

(** [validateField(field)]: the result is whether the field's group
    carries [error] afterwards, given whether it did before. *)
Definition validateField (fd : input) (had_error : bool) : bool :=
  if required fd then
    if is_empty (trim (input_value fd)) then true
    else if bool_decide (type fd = "email") then
      if test emailRegex (trim (input_value fd)) then false else true
    else if bool_decide (type fd = "number") then
      if gt (ToNumber (input_value fd)) (Fin 0) then false else true
    else false
  else had_error.

(** The rule of the specification for an e-mail address, word for word:
    the trimmed value is non-empty and contains exactly one [@], with at
    least one non-whitespace character before it and a [.] that separates
    two non-empty labels after it. *)
Definition count_at (s : ustring) : nat :=
  List.length (List.filter (N.eqb 64) s).

Fixpoint split_at (c : N) (s : ustring) : option (ustring * ustring) :=
  match s with
  | [] => None
  | x :: s' =>
      if (x =? c)%N then Some ([], s')
      else match split_at c s' with
           | Some (a, b) => Some (x :: a, b)
           | None => None
           end
  end.

(** Some [.] of [s] has a character before it and a character after it. *)
Fixpoint inner_dot (seen : bool) (s : ustring) : bool :=
  match s with
  | [] => false
  | x :: s' =>
      (seen && (x =? 46)%N && negb (is_empty s')) || inner_dot true s'
  end.

Definition spec_email (v : ustring) : bool :=
  let t := trim v in
  negb (is_empty t) && Nat.eqb (count_at t) 1 &&
  match split_at 64 t with
  | Some (before, after) =>
      existsb (fun c => negb (is_space c)) before && inner_dot false after
  | None => false
  end.

(** No whitespace character anywhere in [s]. *)
Definition no_space (s : ustring) : bool :=
  forallb (fun c => negb (is_space c)) s.

(** No [@] in [s]. *)
Definition no_at (s : ustring) : bool := forallb (fun x => negb (x =? 64)%N) s.

End Form.

(** ** The rules of the fields, as the specification words them *)

Module FormRules.

Import Form.

(** The rule of each field in the words of the specification: text and
    date non-empty after trimming, e-mail as [spec_email], number of
    guests non-empty and numerically greater than 0. *)
Definition spec_rule (f : field) (v : ustring) : bool :=
  match f with
  | name | phone | message | eventDate => negb (is_empty (trim v))
  | email => spec_email v
  | guests => negb (is_empty v) && gt (ToNumber v) (Fin 0)
  end.

(** The same rules with an e-mail free of whitespace and a number of
    guests of at least 1. *)
Definition rule (f : field) (v : ustring) : bool :=
  match f with
  | name | phone | message | eventDate => negb (is_empty (trim v))
  | email => spec_email v && no_space (trim v)
  | guests => negb (is_empty v) && ge (ToNumber v) (Fin 1)
  end.

End FormRules.

(** ** Reviews banner *)

Module Banner.

Local Open Scope Q_scope.

(** What [checkBannerVisibility] reads: the scroll offset (a double, here
    the rational it stands for) and the integer layout measurements. *)
Record measures : Type := Measures {
  scrollY : Q;
  innerHeight : Z;
  doveSiamo_offsetTop : Z;
  contact_offsetTop : Z;
  contact_offsetHeight : Z
}.

(** The banner element: its class list and its inline [style.display]. *)
Record banner : Type := Banner_ {
  classes : gset string;
  style_display : string
}.

Definition pastDoveSiamo (m : measures) : bool :=
  Qle_bool (inject_Z (doveSiamo_offsetTop m) - inject_Z (innerHeight m) / 2)
           (scrollY m).

Definition contactMiddle (m : measures) : Q :=
  inject_Z (contact_offsetTop m) + inject_Z (contact_offsetHeight m) / 2.

Definition beforeContactMiddle (m : measures) : bool :=
  negb (Qle_bool (contactMiddle m) (scrollY m)).

Definition checkBannerVisibility (m : measures) (b : banner) : banner :=
  if pastDoveSiamo m && beforeContactMiddle m
  then Banner_ ({[ "visible"%string ]} ∪ classes b) (style_display b)
  else Banner_ (classes b ∖ {[ "visible"%string ]}) (style_display b).

(** The click listener of the close button. *)
Definition reviewClose_click (b : banner) : banner :=
  Banner_ (classes b ∖ {[ "visible"%string ]}) "none".

(** Whether the banner can be seen: an element whose inline style says
    [display: none] has no box, whatever its classes; otherwise the banner
    shows when it carries [visible]. *)
Definition shown (b : banner) : bool :=
  negb (String.eqb (style_display b) "none")
  && bool_decide ("visible"%string ∈ classes b).

(** Everything in the script that writes to the banner element. *)
Inductive event : Type :=
  | Scroll (m : measures)
  | Close.

Definition handle (e : event) (b : banner) : banner :=
  match e with
  | Scroll m => checkBannerVisibility m b
  | Close => reviewClose_click b
  end.

Definition run (es : list event) (b : banner) : banner :=
  fold_left (fun b e => handle e b) es b.

End Banner.

(** ** The banner along the page *)

Module BannerAt.

Import Banner.

Local Open Scope Q_scope.

(** The measures of [m] at another scroll offset. *)
Definition at_scroll (m : measures) (y : Q) : measures :=
  Measures y (innerHeight m) (doveSiamo_offsetTop m) (contact_offsetTop m)
           (contact_offsetHeight m).

(** The offset from which the banner shows. *)
Definition window_start (m : measures) : Q :=
  inject_Z (doveSiamo_offsetTop m) - inject_Z (innerHeight m) / 2.

End BannerAt.

(** ** 4. Setup section: layout switcher *)

Module Layout.

(** The document: elements by node.  [layoutTabs] and [layoutDisplays]
    are the nodes the two [querySelectorAll] calls return. *)
Record page : Type := Page {
  dom : nat -> element;
  layoutTabs : list nat;
  layoutDisplays : list nat
}.

Definition update (f : element -> element) (n : nat) (d : nat -> element)
    : nat -> element :=
  fun m => if decide (m = n) then f (d m) else d m.

Definition show_display (layoutType : option string) (d : nat -> element)
    (display : nat) : nat -> element :=
  if decide (getAttribute "data-layout" (d display) = layoutType)
  then update (classList_add "active") display d
  else update (classList_remove "active") display d.

(** The click listener of the tab at node [tab]. *)
Definition tab_click (tab : nat) (p : page) : page :=
  let layoutType := getAttribute "data-layout" (dom p tab) in
  let d1 :=
    fold_left (fun d t => update (classList_remove "active") t d)
              (layoutTabs p) (dom p) in
  let d2 := update (classList_add "active") tab d1 in
  let d3 := fold_left (show_display layoutType) (layoutDisplays p) d2 in
  Page d3 (layoutTabs p) (layoutDisplays p).

Definition is_active (p : page) (n : nat) : bool :=
  classList_contains "active" (dom p n).

Definition run (clicks : list nat) (p : page) : page :=
  fold_left (fun p tab => tab_click tab p) clicks p.

Definition has_active (e : element) : Prop := "active"%string ∈ classList e.

End Layout.

(** ** What the elements of a list show *)

Module View.

(** Of the elements of [els], exactly the one at position [i] (if any)
    carries [active]. *)
Definition only_current (i : number) (els : list element) : Prop :=
  forall (j : nat) (el : element),
    els !! j = Some el ->
    ("active"%string ∈ classList el <-> i = Int (Z.of_nat j)).

(** [els'] are the elements [els] with nothing but [active] changed. *)
Definition same_but_active (els els' : list element) : Prop :=
  List.length els' = List.length els
  /\ forall (j : nat) (el : element),
       els !! j = Some el ->
       exists el', els' !! j = Some el'
         /\ attributes el' = attributes el
         /\ forall c : string, c <> "active"%string ->
              (c ∈ classList el' <-> c ∈ classList el).

(** Net number of steps forward of a sequence of next and previous. *)
Definition lightbox_net (os : list Lightbox.op) : Z :=
  fold_right (fun o n => match o with
                         | Lightbox.Next => n + 1
                         | Lightbox.Prev => n - 1
                         end) 0 os.

Definition slider_net (os : list Slider.op) : Z :=
  fold_right (fun o n => match o with
                         | Slider.Next => n + 1
                         | Slider.Prev => n - 1
                         end) 0 os.

(** The lightbox shows the image the index is on, and counts it. *)
Definition lightbox_in_sync (s : Lightbox.state) : Prop :=
  exists (z : Z) (img : Lightbox.image),
    Lightbox.currentImageIndex s = Int z
    /\ 0 <= z
    /\ Lightbox.galleryImages s !! Z.to_nat z = Some img
    /\ Lightbox.lightboxImg s = img
    /\ Lightbox.lightboxCounter s
       = (pretty (z + 1) +:+ " / "
            +:+ pretty (Z.of_nat (List.length (Lightbox.galleryImages s))))%string.

(** The slides and dots show the index: both lists are marked for it. *)
Definition slider_shows (s : Slider.state) : Prop :=
  only_current (Slider.currentSlideIndex s) (Slider.storiaSliderImages s)
  /\ only_current (Slider.currentSlideIndex s) (Slider.sliderDots s).

(** No element of [els] carries [exiting]. *)
Definition none_exiting (els : list element) : Prop :=
  forall (j : nat) (el : element),
    els !! j = Some el -> "exiting"%string ∉ classList el.

(** [e'] is [e] but for the class [active]. *)
Definition but_active (e e' : element) : Prop :=
  attributes e' = attributes e
  /\ forall c : string, c <> "active"%string ->
       (c ∈ classList e' <-> c ∈ classList e).

End View.

(** ** The lightbox as the user drives it *)

Module LightboxEvents.

Import Lightbox.

(** The [keydown] listener of the document. *)
Definition keydown (key : string) (s : state) : completion * state :=
  if lightbox_active s then
    if String.eqb key "Escape" then (Normal, closeLightbox s)
    else if String.eqb key "ArrowRight" then showNextImage s
    else if String.eqb key "ArrowLeft" then showPrevImage s
    else (Normal, s)
  else (Normal, s).

(** The [click] listener of the lightbox itself: only a click whose target
    is the backdrop closes. *)
Definition lightbox_click (target_is_lightbox : bool) (s : state)
    : completion * state :=
  if target_is_lightbox then (Normal, closeLightbox s) else (Normal, s).

Inductive event : Type :=
  | Key (key : string)
  | ItemClick (index : nat)
  | CloseClick
  | BackdropClick (target_is_lightbox : bool)
  | NextClick
  | PrevClick.

(** A click on gallery item [index] needs that item. *)
Definition handle (e : event) (s : state) : completion * state :=
  match e with
  | Key key => keydown key s
  | ItemClick index =>
      if bool_decide (index < List.length (galleryImages s))%nat
      then galleryItem_click index s else (Normal, s)
  | CloseClick => (Normal, closeLightbox s)
  | BackdropClick t => lightbox_click t s
  | NextClick => showNextImage s
  | PrevClick => showPrevImage s
  end.

(** Whether the event is a click on one of the two arrow buttons. *)
Definition is_button (e : event) : bool :=
  match e with
  | NextClick | PrevClick => true
  | _ => false
  end.

Fixpoint run (es : list event) (s : state) : bool * state :=
  match es with
  | [] => (false, s)
  | e :: es' =>
      let (c, s') := handle e s in
      let (t, s'') := run es' s' in
      (match c with Normal => t | Throw _ => true end, s'')
  end.

End LightboxEvents.

(** ** 1. Loading page *)

Module Loading.

Record state : Type := State {
  hasInteracted : bool;
  loadingPage : element;
  body_overflow : string
}.

Definition hideLoadingPage (s : state) : state :=
  if negb (hasInteracted s)
  then State true (classList_add "hidden" (loadingPage s)) "auto"
  else s.

(** The calls of [hideLoadingPage] (first scroll, wheel, click or touch,
    and the three-second timeout) among the other writes to the overflow of
    the body (page load, lightbox opened or closed). *)
Inductive event : Type :=
  | Hide
  | Overflow (v : string).

Definition handle (e : event) (s : state) : state :=
  match e with
  | Hide => hideLoadingPage s
  | Overflow v => State (hasInteracted s) (loadingPage s) v
  end.

Definition run (es : list event) (s : state) : state :=
  fold_left (fun s e => handle e s) es s.

Definition is_hide (e : event) : bool :=
  match e with Hide => true | Overflow _ => false end.

End Loading.

(** ** 2. Navigation bar *)

Module Nav.

Record state : Type := State {
  hamburger : element;
  mobileMenu : element
}.

(** [classList.toggle(c)] *)
Definition toggle (c : string) (e : element) : element :=
  if classList_contains c e then classList_remove c e else classList_add c e.

Definition hamburger_click (s : state) : state :=
  State (toggle "active" (hamburger s)) (toggle "active" (mobileMenu s)).

(** The first [click] listener of every navigation link. *)
Definition link_click (s : state) : state :=
  State (classList_remove "active" (hamburger s))
        (classList_remove "active" (mobileMenu s)).

Inductive event : Type := HamburgerClick | LinkClick.

Definition handle (e : event) (s : state) : state :=
  match e with
  | HamburgerClick => hamburger_click s
  | LinkClick => link_click s
  end.

Definition run (es : list event) (s : state) : state :=
  fold_left (fun s e => handle e s) es s.

Definition is_open (e : element) : bool := classList_contains "active" e.

(** The button and the menu are both open or both closed. *)
Definition in_step (s : state) : Prop :=
  is_open (hamburger s) = is_open (mobileMenu s).

End Nav.

(** ** 3. Language switcher *)

Module Lang.

(** An element matching [[data-en][data-it]]. *)
Record node : Type := Node {
  tagName : string;
  node_attributes : gmap string string;
  placeholder : string;
  textContent : string
}.

(** [currentLang] holds a string or [null] (a button without [data-lang]);
    [document_lang] is what was last assigned to
    [document.documentElement.lang]. *)
Record state : Type := State {
  currentLang : option string;
  langButtons : list element;
  document_lang : option string;
  translatable : list node
}.

(** [`data-${lang}`] *)
Definition data_attr (lang : option string) : string :=
  ("data-" +:+ match lang with Some l => l | None => "null" end)%string.

Definition is_field (n : node) : bool :=
  String.eqb (tagName n) "INPUT" || String.eqb (tagName n) "TEXTAREA".

(** The body of the [forEach] of [switchLanguage]; the empty string is
    falsy. *)
Definition translate (lang : option string) (n : node) : node :=
  match node_attributes n !! data_attr lang with
  | Some text =>
      if String.eqb text "" then n
      else if is_field n
      then Node (tagName n) (node_attributes n) text (textContent n)
      else Node (tagName n) (node_attributes n) (placeholder n) text
  | None => n
  end.

Definition switchLanguage (lang : option string) (s : state) : state :=
  State (currentLang s) (langButtons s) (document_lang s)
        (List.map (translate lang) (translatable s)).

(** The [click] listener of language button number [k]. *)
Definition button_click (k : nat) (s : state) : state :=
  match langButtons s !! k with
  | None => s
  | Some btn =>
      let newLang := getAttribute "data-lang" btn in
      if bool_decide (newLang <> currentLang s) then
        let buttons :=
          imap (fun j b =>
                  if Nat.eqb j k
                  then classList_add "active" (classList_remove "active" b)
                  else classList_remove "active" b)
               (langButtons s) in
        switchLanguage newLang
          (State newLang buttons newLang (translatable s))
      else s
  end.

Definition run (clicks : list nat) (s : state) : state :=
  fold_left (fun s k => button_click k s) clicks s.

(** The text the user reads on a node. *)
Definition shown (n : node) : string :=
  if is_field n then placeholder n else textContent n.

(** The node carries a non-empty text for the language. *)
Definition has_text (lang : option string) (n : node) : Prop :=
  exists text, node_attributes n !! data_attr lang = Some text
               /\ text <> ""%string.

(** Every node that carries a non-empty text for the current language
    shows it. *)
Definition reads_current (s : state) : Prop :=
  forall (n : node) (text : string),
    In n (translatable s) ->
    node_attributes n !! data_attr (currentLang s) = Some text ->
    text <> ""%string -> shown n = text.

End Lang.

(** ** Reviews rotation *)

Module Reviews.

Record state : Type := State {
  reviewItems : list element;
  currentReviewIndex : number
}.

(** [rotateReviews] up to its [setTimeout]: the result carries the
    position of [currentReview], which the delayed function keeps. *)
Definition rotate_start (s : state) : completion * state * option nat :=
  match currentReviewIndex s with
  | Int z =>
      if z <? 0 then (Throw "TypeError", s, None)
      else
        match reviewItems s !! Z.to_nat z with
        | None => (Throw "TypeError", s, None)
        | Some _ =>
            (Normal,
             State (alter (classList_add "exiting") (Z.to_nat z) (reviewItems s))
                   (currentReviewIndex s),
             Some (Z.to_nat z))
        end
  | NaN => (Throw "TypeError", s, None)
  end.

(** The function run 500 ms later, for the [currentReview] at [kept]. *)
Definition rotate_finish (kept : nat) (s : state) : completion * state :=
  let items1 :=
    alter (fun e => classList_remove "exiting" (classList_remove "active" e))
          kept (reviewItems s) in
  let i := rem (add (currentReviewIndex s) (Int 1)) (Js.length items1) in
  match get items1 i with
  | None => (Throw "TypeError", State items1 i)
  | Some _ =>
      match i with
      | Int z =>
          (Normal,
           State (alter (classList_add "active") (Z.to_nat z) items1) i)
      | NaN => (Throw "TypeError", State items1 i)
      end
  end.

(** One firing of the interval with its delayed second half. *)
Definition rotate (s : state) : completion * state :=
  match rotate_start s with
  | (Normal, s1, Some kept) => rotate_finish kept s1
  | (c, s1, _) => (c, s1)
  end.

End Reviews.

(** ** Utility functions *)

Module Debounce.

Section WithArgs.

Context {A : Type}.

(** A pending [setTimeout(later, wait)]: its id, when it is due, and the
    arguments its closure holds. *)
Record timer : Type := Timer { tid : nat; due : Z; args : A }.

(** One debounced function: the variable [timeout] of its closure, the
    browser's clock and timer table, and the calls of [func] made so far
    (time and arguments, oldest first). *)
Record state : Type := State {
  now : Z;
  timeout : option nat;
  pending : list timer;
  next_id : nat;
  calls : list (Z * A)
}.

Definition clearTimeout (id : option nat) (ts : list timer) : list timer :=
  match id with
  | None => ts
  | Some i => List.filter (fun t => negb (Nat.eqb (tid t) i)) ts
  end.

(** [executedFunction(...args)] with [wait] milliseconds. *)
Definition executedFunction (wait : Z) (a : A) (s : state) : state :=
  State (now s) (Some (next_id s))
        (clearTimeout (timeout s) (pending s)
           ++ [Timer (next_id s) (now s + wait) a])
        (S (next_id s)) (calls s).

(** The timer [t] fires: it leaves the table and [later] runs. *)
Definition fire (t : timer) (s : state) : state :=
  let rest := List.filter (fun u => negb (Nat.eqb (tid u) (tid t))) (pending s) in
  State (now s) (timeout s) (clearTimeout (timeout s) rest) (next_id s)
        (calls s ++ [(now s, args t)]).

(** One millisecond passes; the timers due then fire in order, unless an
    earlier one has cleared them. *)
Definition tick (s : state) : state :=
  let t' := now s + 1 in
  let s1 := State t' (timeout s) (pending s) (next_id s) (calls s) in
  fold_left
    (fun s t =>
       if existsb (fun u => Nat.eqb (tid u) (tid t)) (pending s)
       then fire t s else s)
    (List.filter (fun t => due t =? t') (pending s)) s1.

Definition elapse (n : nat) (s : state) : state := Nat.iter n tick s.

(** Calls of the debounced function, each after a pause in
    milliseconds. *)
Definition burst (wait : Z) (cs : list (nat * A)) (s : state) : state :=
  fold_left (fun s c => executedFunction wait (snd c) (elapse (fst c) s)) cs s.

(** One timer is pending, the one [timeout] names; it is due at [d] and
    holds the arguments [a]. *)
Definition armed (s : state) (d : Z) (a : A) : Prop :=
  exists id, pending s = [Timer id d a] /\ timeout s = Some id.

End WithArgs.

Arguments timer : clear implicits.
Arguments state : clear implicits.

End Debounce.

Module Viewport.

Local Open Scope Q_scope.

(** [getBoundingClientRect()] *)
Record rect : Type := Rect { top : Q; left : Q; bottom : Q; right : Q }.

Record window : Type := Window {
  innerHeight : Z;
  innerWidth : Z;
  clientHeight : Z;
  clientWidth : Z
}.

(** [a || b] on numbers: 0 is falsy. *)
Definition or_else (a b : Z) : Z := if (a =? 0)%Z then b else a.

Definition isInViewport (w : window) (r : rect) : bool :=
  Qle_bool 0 (top r) && Qle_bool 0 (left r)
  && Qle_bool (bottom r) (inject_Z (or_else (innerHeight w) (clientHeight w)))
  && Qle_bool (right r) (inject_Z (or_else (innerWidth w) (clientWidth w))).

End Viewport.

(** ** 11. Preloading the hero image *)

Module Hero.

(** [s.slice(start, end)] *)
Definition slice (start end_ : Z) (s : ustring) : ustring :=
  let len := Z.of_nat (List.length s) in
  let from := if start <? 0 then Z.max (len + start) 0 else Z.min start len in
  let to := if end_ <? 0 then Z.max (len + end_) 0 else Z.min end_ len in
  take (Z.to_nat (Z.max (to - from) 0)) (drop (Z.to_nat from) s).

(** [getComputedStyle(heroImage).backgroundImage.slice(5, -2)] *)
Definition heroSrc (backgroundImage : ustring) : ustring :=
  slice 5 (-2) backgroundImage.

End Hero.

(** * Properties *)

(** ** Cyclic selection: lightbox and slider *)

Section Remainders.

Lemma rem_succ (z n : Z) :
  0 <= z < n -> Z.rem (z + 1) n = if z + 1 =? n then 0 else z + 1.
Proof.
  intros H. rewrite Z.rem_mod_nonneg by lia.
  destruct (z + 1 =? n) eqn:E.
  - apply Z.eqb_eq in E. rewrite E. apply Z.mod_same. lia.
  - apply Z.eqb_neq in E. apply Z.mod_small. lia.
Qed.

Lemma rem_pred (z n : Z) :
  0 <= z < n -> Z.rem (z - 1 + n) n = if z =? 0 then n - 1 else z - 1.
Proof.
  intros H. rewrite Z.rem_mod_nonneg by lia.
  destruct (z =? 0) eqn:E.
  - apply Z.eqb_eq in E. subst z. rewrite Z.mod_small; lia.
  - apply Z.eqb_neq in E.
    replace (z - 1 + n) with (z - 1 + 1 * n) by lia.
    rewrite Z.mod_add by lia. rewrite Z.mod_small; lia.
Qed.

Lemma is_index_spec (i : number) (n : nat) :
  is_index i n = true <-> exists z, i = Int z /\ 0 <= z < Z.of_nat n.
Proof.
  destruct i as [|z]; simpl.
  - split; [discriminate | intros (z & H & _); discriminate].
  - rewrite andb_true_iff, Z.leb_le, Z.ltb_lt. split.
    + intros H. exists z. auto.
    + intros (z' & H & Hz). injection H as ->. exact Hz.
Qed.

Lemma is_index_Int (z : Z) (n : nat) :
  0 <= z < Z.of_nat n -> is_index (Int z) n = true.
Proof. intros H. apply is_index_spec. eauto. Qed.

(** The index after [next], as a number. *)
Lemma next_index (z : Z) (n : nat) :
  0 <= z < Z.of_nat n ->
  rem (add (Int z) (Int 1)) (Int (Z.of_nat n))
  = Int (if z + 1 =? Z.of_nat n then 0 else z + 1).
Proof.
  intros H. simpl. destruct (Z.of_nat n =? 0) eqn:E.
  - apply Z.eqb_eq in E. lia.
  - now rewrite rem_succ.
Qed.

Lemma prev_index (z : Z) (n : nat) :
  0 <= z < Z.of_nat n ->
  rem (add (sub (Int z) (Int 1)) (Int (Z.of_nat n))) (Int (Z.of_nat n))
  = Int (if z =? 0 then Z.of_nat n - 1 else z - 1).
Proof.
  intros H. simpl. destruct (Z.of_nat n =? 0) eqn:E.
  - apply Z.eqb_eq in E. lia.
  - now rewrite rem_pred.
Qed.

Lemma get_is_index {A} (l : list A) (i : number) :
  is_index i (List.length l) = true -> is_Some (get l i).
Proof.
  intros H. apply is_index_spec in H as (z & -> & Hz). simpl.
  destruct (z <? 0) eqn:E; [apply Z.ltb_lt in E; lia|].
  apply lookup_lt_is_Some. lia.
Qed.

End Remainders.

Section LightboxNavigation.

Import Lightbox.

Lemma updateLightboxImage_ok (s : state) :
  lightbox_ok s ->
  exists s', updateLightboxImage s = (Normal, s')
             /\ currentImageIndex s' = currentImageIndex s
             /\ galleryImages s' = galleryImages s.
Proof.
  intros H. unfold updateLightboxImage.
  destruct (get_is_index _ _ H) as [img ->]. eauto.
Qed.

Lemma showNextImage_ok (s : state) (z : Z) :
  currentImageIndex s = Int z ->
  0 <= z < Z.of_nat (List.length (galleryImages s)) ->
  exists s', showNextImage s = (Normal, s')
    /\ currentImageIndex s'
       = Int (if z + 1 =? Z.of_nat (List.length (galleryImages s))
              then 0 else z + 1)
    /\ galleryImages s' = galleryImages s.
Proof.
  intros Hi Hz. unfold showNextImage, Js.length. rewrite Hi, next_index by exact Hz.
  set (s1 := set_index _ s).
  destruct (updateLightboxImage_ok s1) as (s' & E & Ei & Eg).
  - unfold lightbox_ok, s1. simpl. apply is_index_Int. destruct (_ =? _) eqn:E; lia.
  - exists s'. rewrite E, Ei, Eg. auto.
Qed.

Lemma showPrevImage_ok (s : state) (z : Z) :
  currentImageIndex s = Int z ->
  0 <= z < Z.of_nat (List.length (galleryImages s)) ->
  exists s', showPrevImage s = (Normal, s')
    /\ currentImageIndex s'
       = Int (if z =? 0 then Z.of_nat (List.length (galleryImages s)) - 1
              else z - 1)
    /\ galleryImages s' = galleryImages s.
Proof.
  intros Hi Hz. unfold showPrevImage, Js.length. rewrite Hi, prev_index by exact Hz.
  set (s1 := set_index _ s).
  destruct (updateLightboxImage_ok s1) as (s' & E & Ei & Eg).
  - unfold lightbox_ok, s1. simpl. apply is_index_Int. destruct (_ =? _) eqn:E; lia.
  - exists s'. rewrite E, Ei, Eg. auto.
Qed.

Lemma lightbox_step_ok (o : op) (s : state) :
  lightbox_ok s ->
  exists s', step o s = (Normal, s') /\ lightbox_ok s'
             /\ galleryImages s' = galleryImages s.
Proof.
  intros H. apply is_index_spec in H as H'. destruct H' as (z & Hi & Hz).
  destruct o; simpl.
  - destruct (showNextImage_ok s z Hi Hz) as (s' & E & Ei & Eg).
    exists s'. split; [exact E|]. split; [|exact Eg].
    unfold lightbox_ok. rewrite Ei, Eg. apply is_index_Int.
    destruct (_ =? _) eqn:?; lia.
  - destruct (showPrevImage_ok s z Hi Hz) as (s' & E & Ei & Eg).
    exists s'. split; [exact E|]. split; [|exact Eg].
    unfold lightbox_ok. rewrite Ei, Eg. apply is_index_Int.
    destruct (_ =? _) eqn:?; lia.
Qed.

Lemma lightbox_run_ok (os : list op) (s : state) :
  lightbox_ok s ->
  fst (run os s) = false /\ lightbox_ok (snd (run os s))
  /\ galleryImages (snd (run os s)) = galleryImages s.
Proof.
  revert s. induction os as [|o os IH]; intros s H; simpl.
  - auto.
  - destruct (lightbox_step_ok o s H) as (s' & E & H' & Eg). rewrite E.
    destruct (IH s' H') as (A & B & C).
    destruct (run os s') as [t s'']. simpl in *. rewrite <- Eg. auto.
Qed.

Lemma lightbox_next_prev (s : state) :
  lightbox_ok s ->
  currentImageIndex (snd (showPrevImage (snd (showNextImage s))))
  = currentImageIndex s.
Proof.
  intros H. apply is_index_spec in H as (z & Hi & Hz).
  destruct (showNextImage_ok s z Hi Hz) as (s1 & E1 & Ei1 & Eg1).
  rewrite E1. simpl. rewrite <- Eg1 in Ei1, Hz.
  destruct (showPrevImage_ok s1 _ Ei1) as (s2 & E2 & Ei2 & Eg2).
  - destruct (_ =? _) eqn:E; lia.
  - rewrite E2. simpl. rewrite Ei2, Hi. f_equal.
    destruct (z + 1 =? _) eqn:E; simpl.
    + lia.
    + destruct (z + 1 =? 0) eqn:E0; lia.
Qed.

Lemma lightbox_prev_next (s : state) :
  lightbox_ok s ->
  currentImageIndex (snd (showNextImage (snd (showPrevImage s))))
  = currentImageIndex s.
Proof.
  intros H. apply is_index_spec in H as (z & Hi & Hz).
  destruct (showPrevImage_ok s z Hi Hz) as (s1 & E1 & Ei1 & Eg1).
  rewrite E1. simpl. rewrite <- Eg1 in Ei1, Hz.
  destruct (showNextImage_ok s1 _ Ei1) as (s2 & E2 & Ei2 & Eg2).
  - destruct (_ =? _) eqn:E; lia.
  - rewrite E2. simpl. rewrite Ei2, Hi. f_equal.
    destruct (z =? 0) eqn:E; destruct (_ + 1 =? _) eqn:E0; lia.
Qed.

End LightboxNavigation.

Section SliderNavigation.

Import Slider.

Lemma length_mark (i : number) (els : list element) :
  List.length (mark i els) = List.length els.
Proof. unfold mark. apply length_imap. Qed.

Lemma showNextSlide_index (s : state) (z : Z) :
  currentSlideIndex s = Int z ->
  0 <= z < Z.of_nat (List.length (storiaSliderImages s)) ->
  currentSlideIndex (showNextSlide s)
  = Int (if z + 1 =? Z.of_nat (List.length (storiaSliderImages s))
         then 0 else z + 1).
Proof.
  intros Hi Hz. unfold showNextSlide, Js.length. rewrite Hi, next_index by exact Hz.
  reflexivity.
Qed.

Lemma showPrevSlide_index (s : state) (z : Z) :
  currentSlideIndex s = Int z ->
  0 <= z < Z.of_nat (List.length (storiaSliderImages s)) ->
  currentSlideIndex (showPrevSlide s)
  = Int (if z =? 0 then Z.of_nat (List.length (storiaSliderImages s)) - 1
         else z - 1).
Proof.
  intros Hi Hz. unfold showPrevSlide, Js.length. rewrite Hi, prev_index by exact Hz.
  reflexivity.
Qed.

Lemma showNextSlide_length (s : state) :
  List.length (storiaSliderImages (showNextSlide s))
  = List.length (storiaSliderImages s).
Proof. unfold showNextSlide. simpl. apply length_mark. Qed.

Lemma showPrevSlide_length (s : state) :
  List.length (storiaSliderImages (showPrevSlide s))
  = List.length (storiaSliderImages s).
Proof. unfold showPrevSlide. simpl. apply length_mark. Qed.

Lemma slider_step_ok (o : op) (s : state) :
  slider_ok s ->
  slider_ok (step o s)
  /\ List.length (storiaSliderImages (step o s))
     = List.length (storiaSliderImages s).
Proof.
  intros H. apply is_index_spec in H as (z & Hi & Hz). unfold slider_ok.
  destruct o; cbn [step].
  - rewrite showNextSlide_length, (showNextSlide_index s z Hi Hz).
    split; [|reflexivity]. apply is_index_Int. destruct (_ =? _) eqn:?; lia.
  - rewrite showPrevSlide_length, (showPrevSlide_index s z Hi Hz).
    split; [|reflexivity]. apply is_index_Int. destruct (_ =? _) eqn:?; lia.
Qed.

Lemma slider_steps_ok (os : list op) (s : state) :
  slider_ok s ->
  slider_ok (fold_left (fun s o => step o s) os s)
  /\ List.length (storiaSliderImages (fold_left (fun s o => step o s) os s))
     = List.length (storiaSliderImages s).
Proof.
  revert s. induction os as [|o os IH]; intros s H; simpl; [auto|].
  destruct (slider_step_ok o s H) as [H1 H2].
  destruct (IH _ H1) as [H3 H4]. rewrite <- H2. auto.
Qed.

Lemma slider_next_prev (s : state) :
  slider_ok s ->
  currentSlideIndex (showPrevSlide (showNextSlide s)) = currentSlideIndex s.
Proof.
  intros H. apply is_index_spec in H as (z & Hi & Hz).
  pose proof (showNextSlide_index s z Hi Hz) as E1.
  pose proof (showNextSlide_length s) as L1. rewrite <- L1 in E1, Hz.
  rewrite (showPrevSlide_index _ _ E1), Hi; clear E1 L1.
  - f_equal. revert Hz. generalize (Z.of_nat (List.length
      (storiaSliderImages (showNextSlide s)))). intros n Hz.
    destruct (z + 1 =? n) eqn:E; simpl.
    + lia.
    + destruct (z + 1 =? 0) eqn:E0; lia.
  - destruct (_ =? _) eqn:E; lia.
Qed.

Lemma slider_prev_next (s : state) :
  slider_ok s ->
  currentSlideIndex (showNextSlide (showPrevSlide s)) = currentSlideIndex s.
Proof.
  intros H. apply is_index_spec in H as (z & Hi & Hz).
  pose proof (showPrevSlide_index s z Hi Hz) as E1.
  pose proof (showPrevSlide_length s) as L1. rewrite <- L1 in E1, Hz.
  rewrite (showNextSlide_index _ _ E1), Hi; clear E1 L1.
  - f_equal. revert Hz. generalize (Z.of_nat (List.length
      (storiaSliderImages (showPrevSlide s)))). intros n Hz.
    destruct (z =? 0) eqn:E; destruct (_ + 1 =? _) eqn:E0; lia.
  - destruct (_ =? _) eqn:E; lia.
Qed.

End SliderNavigation.

(** C1.  With at least one item and the index on one of them, any
    sequence of next and previous calls, on the lightbox
    ([showNextImage], [showPrevImage]) and on the slider ([showNextSlide],
    [showPrevSlide]), runs without a throw and leaves the index in
    [0 .. N-1]; next followed by previous, and previous followed by next,
    give back the index they started from. *)
Theorem cyclic_selector_stays_in_range
    (ls : Lightbox.state) (ss : Slider.state)
    (los : list Lightbox.op) (sos : list Slider.op) :
  is_index (Lightbox.currentImageIndex ls)
           (List.length (Lightbox.galleryImages ls)) = true ->
  is_index (Slider.currentSlideIndex ss)
           (List.length (Slider.storiaSliderImages ss)) = true ->
  (fst (Lightbox.run los ls) = false
   /\ is_index (Lightbox.currentImageIndex (snd (Lightbox.run los ls)))
               (List.length (Lightbox.galleryImages ls)) = true
   /\ Lightbox.currentImageIndex
        (snd (Lightbox.showPrevImage (snd (Lightbox.showNextImage ls))))
      = Lightbox.currentImageIndex ls
   /\ Lightbox.currentImageIndex
        (snd (Lightbox.showNextImage (snd (Lightbox.showPrevImage ls))))
      = Lightbox.currentImageIndex ls)
  /\
  (is_index (Slider.currentSlideIndex
               (fold_left (fun s o => Slider.step o s) sos ss))
            (List.length (Slider.storiaSliderImages ss)) = true
   /\ Slider.currentSlideIndex (Slider.showPrevSlide (Slider.showNextSlide ss))
      = Slider.currentSlideIndex ss
   /\ Slider.currentSlideIndex (Slider.showNextSlide (Slider.showPrevSlide ss))
      = Slider.currentSlideIndex ss).
Proof.
  intros Hl Hs. split.
  - destruct (lightbox_run_ok los ls Hl) as (A & B & C).
    unfold Lightbox.lightbox_ok in B. rewrite C in B.
    auto using lightbox_next_prev, lightbox_prev_next.
  - destruct (slider_steps_ok sos ss Hs) as (A & B).
    unfold Slider.slider_ok in A. rewrite B in A.
    auto using slider_next_prev, slider_prev_next.
Qed.

Lemma cyclic_selector_stays_in_range_witness :
  let img := Lightbox.Image "a.jpg" "a" in
  let ls := Lightbox.State (Int 2) [img; img; img] img "" true "hidden" in
  let el := Element ∅ ∅ in
  let ss := Slider.State (Int 0) [el; el] [el; el] None false 0 [] 0 0 in
  fst (Lightbox.run [Lightbox.Next; Lightbox.Next; Lightbox.Prev] ls) = false
  /\ Slider.currentSlideIndex (Slider.showNextSlide (Slider.showPrevSlide ss))
     = Int 0.
Proof.
  intros img ls el ss.
  pose proof (cyclic_selector_stays_in_range ls ss
                [Lightbox.Next; Lightbox.Next; Lightbox.Prev] []
                eq_refl eq_refl) as H.
  split; [exact (proj1 (proj1 H)) | exact (proj2 (proj2 (proj2 H)))].
Defined.

(** ** The empty collection *)

Section EmptyCollection.

Import Slider.

Lemma slider_idle (es : list event) (s : state) :
  listening s = false -> timers s = [] ->
  currentSlideIndex (run es s) = currentSlideIndex s
  /\ listening (run es s) = false /\ timers (run es s) = [].
Proof.
  revert s. induction es as [|e es IH]; intros s Hl Ht; [auto|].
  unfold run. simpl. fold (run es (handle e s)).
  assert (currentSlideIndex (handle e s) = currentSlideIndex s
          /\ listening (handle e s) = false /\ timers (handle e s) = []) as (A & B & C).
  { destruct e; cbn [handle]; rewrite ?Hl; cbn [andb]; auto.
    unfold tick. rewrite Ht. simpl. rewrite Ht. auto. }
  destruct (IH _ B C) as (A' & B' & C'). rewrite A', A. auto.
Qed.

End EmptyCollection.

(** C2 (the code departs from the claim): on a page without gallery items
    the lightbox's next and previous set the index to NaN and throw a
    TypeError, whatever the state before.  The slider does what the claim
    says: without images no timer is started and no listener installed,
    so whatever happens the index remains the initial 0. *)
Theorem empty_gallery_navigation_throws :
  (forall i img counter active overflow,
     let s := Lightbox.State i [] img counter active overflow in
     Lightbox.showNextImage s = (Throw "TypeError", Lightbox.set_index NaN s)
     /\ Lightbox.showPrevImage s
        = (Throw "TypeError", Lightbox.set_index NaN s))
  /\ (forall dots t0 es,
        Slider.currentSlideIndex (Slider.run es (Slider.init [] dots t0))
        = Int 0).
Proof.
  split.
  - intros i img counter active overflow s.
    destruct i as [|z]; split; reflexivity.
  - intros dots t0 es.
    destruct (slider_idle es (Slider.init [] dots t0) eq_refl eq_refl) as (A & _).
    exact A.
Qed.

(** ** Jumping to a slide *)

(** C3, as the claim states it, fails: with six slides, [goToSlide(7)]
    is not rejected, the index becomes 7; on a page with six slides and
    eight dots a click on the last dot does just that. *)
Lemma goToSlide_out_of_range_accepted :
  let el := Element ∅ ∅ in
  let images := [el; el; el; el; el; el] in
  let s := Slider.init images [el; el; el; el; el; el; el; el] 0 in
  is_index (Int 7) (List.length images) = false
  /\ Slider.currentSlideIndex s = Int 0
  /\ Slider.currentSlideIndex (Slider.goToSlide (Int 7) s) = Int 7
  /\ Slider.currentSlideIndex (Slider.handle (Slider.Dot 7) s) = Int 7.
Proof. repeat split. Qed.

(** C3, amended: [goToSlide(i)] checks nothing; for every number [i], in
    range or not, the index is [i] afterwards (never a wrapped value) and
    the slides are the same in number.  A click on dot number [k] calls it
    with [k], the position of that dot. *)
Theorem goToSlide_sets_index :
  (forall (s : Slider.state) (i : number),
     Slider.currentSlideIndex (Slider.goToSlide i s) = i
     /\ List.length (Slider.storiaSliderImages (Slider.goToSlide i s))
        = List.length (Slider.storiaSliderImages s))
  /\ (forall (s : Slider.state) (k : nat),
        Slider.currentSlideIndex (Slider.handle (Slider.Dot k) s) = Int (Z.of_nat k)
        \/ Slider.handle (Slider.Dot k) s = s).
Proof.
  split.
  - intros s i. split; [reflexivity|]. unfold Slider.goToSlide. simpl.
    apply length_mark.
  - intros s k. simpl. destruct (_ && _); [left; reflexivity | right; reflexivity].
Qed.

(** ** Regular expressions: [test] decides [matches] *)

Section RegexFacts.

Implicit Types (r : regex) (s : ustring) (c : N).

Lemma matches_cat_inv r1 r2 s :
  matches (Cat r1 r2) s ->
  exists s1 s2, s = s1 ++ s2 /\ matches r1 s1 /\ matches r2 s2.
Proof. intros H. inversion H; subst. eauto. Qed.

Lemma matches_alt_inv r1 r2 s :
  matches (Alt r1 r2) s -> matches r1 s \/ matches r2 s.
Proof. intros H. inversion H; subst; auto. Qed.

Lemma matches_class_inv p s :
  matches (Class p) s -> exists c, s = [c] /\ p c = true.
Proof. intros H. inversion H; subst. eauto. Qed.

Lemma nullable_matches r : nullable r = true <-> matches r [].
Proof.
  induction r as [| |p|r1 IH1 r2 IH2|r1 IH1 r2 IH2|r IH]; simpl.
  - split; [discriminate | intros H; inversion H].
  - split; [constructor | reflexivity].
  - split; [discriminate | intros H; inversion H].
  - rewrite andb_true_iff, IH1, IH2. split.
    + intros [H1 H2]. exact (m_cat _ _ [] [] H1 H2).
    + intros H. apply matches_cat_inv in H as (s1 & s2 & E & H1 & H2).
      symmetry in E. apply app_eq_nil in E as [-> ->]. auto.
  - rewrite orb_true_iff, IH1, IH2. split.
    + intros [H|H]; [apply m_alt_l | apply m_alt_r]; exact H.
    + apply matches_alt_inv.
  - split; [constructor | reflexivity].
Qed.

(** A non-empty match of a star starts with a non-empty match of its
    body. *)
Lemma matches_star_cons r c s :
  matches (Star r) (c :: s) ->
  exists s1 s2, s = s1 ++ s2 /\ matches r (c :: s1) /\ matches (Star r) s2.
Proof.
  intros H. remember (Star r) as r' eqn:Er. remember (c :: s) as w eqn:Ew.
  revert s Ew.
  induction H as [| | | | | |r0 s1 s2 H1 _ H2 IH2]; intros t Ew; try discriminate.
  injection Er as ->. destruct s1 as [|c1 s1]; simpl in Ew.
  - apply IH2; [reflexivity | exact Ew].
  - injection Ew as -> <-. eauto.
Qed.

Lemma deriv_matches c r s : matches (deriv c r) s <-> matches r (c :: s).
Proof.
  revert s. induction r as [| |p|r1 IH1 r2 IH2|r1 IH1 r2 IH2|r IH]; intros s; simpl.
  - split; intros H; inversion H.
  - split; intros H; inversion H.
  - destruct (p c) eqn:Ep; split; intros H.
    + inversion H; subst. constructor. exact Ep.
    + apply matches_class_inv in H as (c' & E & Hp). injection E as _ ->.
      constructor.
    + inversion H.
    + apply matches_class_inv in H as (c' & E & Hp). injection E as <- _.
      congruence.
  - assert (matches (Cat (deriv c r1) r2) s
            <-> exists s1 s2, s = s1 ++ s2 /\ matches r1 (c :: s1) /\ matches r2 s2)
      as Hcat.
    { split.
      - intros H. apply matches_cat_inv in H as (s1 & s2 & E & H1 & H2).
        apply IH1 in H1. eauto.
      - intros (s1 & s2 & -> & H1 & H2). apply IH1 in H1. now constructor. }
    destruct (nullable r1) eqn:En.
    + split.
      * intros H. apply matches_alt_inv in H as [H|H].
        -- apply Hcat in H as (s1 & s2 & -> & H1 & H2).
           exact (m_cat _ _ (c :: s1) s2 H1 H2).
        -- apply IH2 in H. apply nullable_matches in En.
           exact (m_cat _ _ [] (c :: s) En H).
      * intros H. apply matches_cat_inv in H as (s1 & s2 & E & H1 & H2).
        destruct s1 as [|c1 s1]; simpl in E.
        -- subst s2. apply m_alt_r. now apply IH2.
        -- injection E as <- ->. apply m_alt_l. apply Hcat. eauto.
    + rewrite Hcat. split.
      * intros (s1 & s2 & -> & H1 & H2). exact (m_cat _ _ (c :: s1) s2 H1 H2).
      * intros H. apply matches_cat_inv in H as (s1 & s2 & E & H1 & H2).
        destruct s1 as [|c1 s1]; simpl in E.
        -- apply nullable_matches in H1. congruence.
        -- injection E as <- ->. eauto.
  - split; intros H.
    + apply matches_alt_inv in H as [H|H];
        [apply m_alt_l; now apply IH1 | apply m_alt_r; now apply IH2].
    + apply matches_alt_inv in H as [H|H];
        [apply m_alt_l; now apply IH1 | apply m_alt_r; now apply IH2].
  - split; intros H.
    + apply matches_cat_inv in H as (s1 & s2 & -> & H1 & H2).
      apply IH in H1. exact (m_star_app _ (c :: s1) s2 H1 H2).
    + apply matches_star_cons in H as (s1 & s2 & -> & H1 & H2).
      apply IH in H1. now constructor.
Qed.

Lemma test_matches r s : test r s = true <-> matches r s.
Proof.
  unfold test. revert r. induction s as [|c s IH]; intros r; simpl.
  - apply nullable_matches.
  - rewrite IH. apply deriv_matches.
Qed.

(** One or more characters of a class. *)
Lemma matches_star_class p s :
  matches (Star (Class p)) s <-> forallb p s = true.
Proof.
  split.
  - intros H. remember (Star (Class p)) as r eqn:Er.
    induction H as [| | | | | |r0 s1 s2 H1 _ H2 IH2]; try discriminate.
    + reflexivity.
    + injection Er as ->. apply matches_class_inv in H1 as (c & -> & Hp).
      simpl. rewrite Hp. now apply IH2.
  - induction s as [|c s IH]; simpl; intros H.
    + constructor.
    + apply andb_true_iff in H as [Hp Hs].
      exact (m_star_app _ [c] s (m_class p c Hp) (IH Hs)).
Qed.

Lemma matches_plus_class p s :
  matches (Plus (Class p)) s <-> s <> [] /\ forallb p s = true.
Proof.
  unfold Plus. split.
  - intros H. apply matches_cat_inv in H as (s1 & s2 & -> & H1 & H2).
    apply matches_class_inv in H1 as (c & -> & Hp).
    apply matches_star_class in H2. simpl. rewrite Hp, H2. split; [discriminate | reflexivity].
  - intros [Hne H]. destruct s as [|c s]; [congruence|]. simpl in H.
    apply andb_true_iff in H as [Hp Hs].
    apply (m_cat _ _ [c] s); [now constructor | now apply matches_star_class].
Qed.

Lemma matches_chr c s : matches (Chr c) s <-> s = [c].
Proof.
  unfold Chr. split.
  - intros H. apply matches_class_inv in H as (c' & -> & E).
    apply N.eqb_eq in E. now subst.
  - intros ->. constructor. apply N.eqb_refl.
Qed.

End RegexFacts.

(** ** The e-mail pattern *)

Section EmailPattern.

Import Form.

Implicit Types (s t a b c d : ustring) (x : N).

Lemma not_space_at_iff s :
  forallb not_space_at s = true <-> no_space s = true /\ no_at s = true.
Proof.
  unfold no_space, no_at, not_space_at. induction s as [|x s IH]; simpl.
  - tauto.
  - rewrite !andb_true_iff, IH, negb_orb, andb_true_iff. tauto.
Qed.

Lemma emailRegex_matches t :
  matches emailRegex t <->
  exists a b c, t = a ++ 64%N :: b ++ 46%N :: c
    /\ a <> [] /\ b <> [] /\ c <> []
    /\ forallb not_space_at a = true /\ forallb not_space_at b = true
    /\ forallb not_space_at c = true.
Proof.
  unfold emailRegex. split.
  - intros H.
    apply matches_cat_inv in H as (a & t1 & -> & Ha & H).
    apply matches_cat_inv in H as (at_ & t2 & -> & Hat & H).
    apply matches_cat_inv in H as (b & t3 & -> & Hb & H).
    apply matches_cat_inv in H as (dot & c & -> & Hdot & Hc).
    apply matches_chr in Hat as ->. apply matches_chr in Hdot as ->.
    apply matches_plus_class in Ha as [? ?], Hb as [? ?], Hc as [? ?].
    exists a, b, c. simpl. auto 10.
  - intros (a & b & c & -> & Ha & Hb & Hc & Fa & Fb & Fc).
    apply m_cat; [now apply matches_plus_class|].
    apply (m_cat _ _ [64%N]); [now apply matches_chr|].
    apply m_cat; [now apply matches_plus_class|].
    apply (m_cat _ _ [46%N]); [now apply matches_chr|].
    now apply matches_plus_class.
Qed.

Lemma count_at_app s t : count_at (s ++ t) = (count_at s + count_at t)%nat.
Proof. unfold count_at. now rewrite List.filter_app, List.length_app. Qed.

Lemma count_at_zero s : count_at s = 0%nat <-> no_at s = true.
Proof.
  unfold count_at, no_at. induction s as [|x s IH]; [simpl; tauto|].
  cbn [List.filter forallb]. rewrite (N.eqb_sym x 64).
  destruct (64 =? x)%N; cbn [negb andb List.length].
  - split; intros H; inversion H.
  - exact IH.
Qed.

Lemma split_at_Some s a d :
  split_at 64 s = Some (a, d) -> s = a ++ 64%N :: d /\ no_at a = true.
Proof.
  revert a. induction s as [|x s IH]; simpl; intros a H; [discriminate|].
  destruct (x =? 64)%N eqn:E.
  - injection H as <- <-. apply N.eqb_eq in E as ->. auto.
  - destruct (split_at 64 s) as [[a' d']|]; [|discriminate].
    injection H as <- <-. destruct (IH a' eq_refl) as [-> Hn].
    split; [reflexivity|]. unfold no_at in *. simpl. now rewrite E, Hn.
Qed.

Lemma split_at_app a d :
  no_at a = true -> split_at 64 (a ++ 64%N :: d) = Some (a, d).
Proof.
  unfold no_at. induction a as [|x a IH]; simpl; intros H; [reflexivity|].
  apply andb_true_iff in H as [Hx Ha]. apply negb_true_iff in Hx.
  now rewrite Hx, IH.
Qed.

Lemma is_empty_false s : is_empty s = false <-> s <> [].
Proof. destruct s; simpl; split; congruence. Qed.

Lemma inner_dot_intro seen b c :
  seen = true \/ b <> [] -> c <> [] -> inner_dot seen (b ++ 46%N :: c) = true.
Proof.
  revert seen. induction b as [|x b IH]; intros seen Hs Hc; simpl.
  - destruct Hs as [-> | ?]; [|congruence].
    apply is_empty_false in Hc. now rewrite Hc.
  - rewrite (IH true); auto using orb_true_r.
Qed.

Lemma inner_dot_elim seen s :
  inner_dot seen s = true ->
  exists b c, s = b ++ 46%N :: c /\ (seen = true \/ b <> []) /\ c <> [].
Proof.
  revert seen. induction s as [|x s IH]; simpl; intros seen H; [discriminate|].
  apply orb_true_iff in H as [H|H].
  - apply andb_true_iff in H as [H Hc]. apply andb_true_iff in H as [-> Hx].
    apply N.eqb_eq in Hx as ->. apply negb_true_iff, is_empty_false in Hc.
    exists [], s. auto.
  - apply IH in H as (b & c & -> & _ & Hc). exists (x :: b), c.
    split; [reflexivity|]. split; [right; discriminate | exact Hc].
Qed.

(** The pattern is the rule of the specification plus: no whitespace
    anywhere. *)
Lemma emailRegex_rule t :
  test emailRegex t
  = negb (is_empty t) && Nat.eqb (count_at t) 1
    && match split_at 64 t with
       | Some (before, after) =>
           existsb (fun x => negb (is_space x)) before && inner_dot false after
       | None => false
       end
    && no_space t.
Proof.
  apply eq_true_iff_eq. rewrite test_matches, emailRegex_matches. split.
  - intros (a & b & c & -> & Ha & Hb & Hc & Fa & Fb & Fc).
    apply not_space_at_iff in Fa as [Sa Aa], Fb as [Sb Ab], Fc as [Sc Ac].
    apply count_at_zero in Aa as Ca, Ab as Cb, Ac as Cc.
    rewrite split_at_app by exact Aa.
    rewrite inner_dot_intro by auto.
    replace (count_at _) with 1%nat.
    2:{ rewrite count_at_app, Ca. change (count_at (64%N :: b ++ 46%N :: c))
          with (S (count_at (b ++ 46%N :: c))).
        rewrite count_at_app, Cb. change (count_at (46%N :: c)) with (count_at c).
        now rewrite Cc. }
    assert (existsb (fun x => negb (is_space x)) a = true) as ->.
    { destruct a as [|x a]; [congruence|]. unfold no_space in Sa. simpl in *.
      apply andb_true_iff in Sa as [-> _]. reflexivity. }
    assert (no_space (a ++ 64%N :: b ++ 46%N :: c) = true) as ->.
    { unfold no_space in *. rewrite forallb_app. simpl. rewrite forallb_app. simpl.
      now rewrite Sa, Sb, Sc. }
    destruct a; [congruence | reflexivity].
  - intros H. apply andb_true_iff in H as [H Hsp].
    apply andb_true_iff in H as [H Hsplit].
    apply andb_true_iff in H as [_ Hcount]. apply Nat.eqb_eq in Hcount.
    destruct (split_at 64 t) as [[a d]|] eqn:Es; [|discriminate].
    apply split_at_Some in Es as [-> Aa].
    apply andb_true_iff in Hsplit as [Hex Hdot].
    apply inner_dot_elim in Hdot as (b & c & -> & [?|Hb] & Hc); [discriminate|].
    apply count_at_zero in Aa as Ca.
    rewrite count_at_app, Ca in Hcount.
    change (count_at (64%N :: b ++ 46%N :: c))
      with (S (count_at (b ++ 46%N :: c))) in Hcount.
    rewrite count_at_app in Hcount.
    change (count_at (46%N :: c)) with (count_at c) in Hcount.
    assert (no_at b = true) as Ab by (apply count_at_zero; lia).
    assert (no_at c = true) as Ac by (apply count_at_zero; lia).
    unfold no_space in Hsp. rewrite forallb_app in Hsp. cbn [forallb] in Hsp.
    rewrite forallb_app in Hsp. cbn [forallb] in Hsp.
    rewrite !andb_true_iff in Hsp. destruct Hsp as (Sa & _ & Sb & _ & Sc).
    exists a, b, c. split; [reflexivity|].
    split; [intros ->; discriminate|]. split; [exact Hb|]. split; [exact Hc|].
    split; [|split]; apply not_space_at_iff; auto.
Qed.

End EmailPattern.

(** C5, as the claim states it, fails: ["a@b c.d"] is non-empty after
    trimming and has exactly one [@], a non-whitespace character before it
    and the label [d] after a [.] behind it, and both e-mail checks
    reject it. *)
Lemma email_with_inner_space_rejected :
  Form.spec_email (lit "a@b c.d") = true
  /\ Form.fails Form.email (lit "a@b c.d") = true
  /\ Form.validateField (Form.Input (lit "a@b c.d") "email" true) false = true.
Proof. vm_compute. auto. Qed.

(** C5, amended: the e-mail check of the submit handler and the e-mail
    branch of [validateField] pass exactly when the trimmed value is
    non-empty, contains exactly one [@] with at least one non-whitespace
    character before it and, after it, a [.] between two non-empty labels,
    and contains no whitespace character at all.  ["a@b.co"] passes and
    ["abc"] fails. *)
Theorem email_check_rule :
  (forall v : ustring,
     Form.fails Form.email v
     = negb (Form.spec_email v && Form.no_space (trim v)))
  /\ (forall (v : ustring) (had_error : bool),
        Form.validateField (Form.Input v "email" true) had_error
        = negb (Form.spec_email v && Form.no_space (trim v)))
  /\ Form.fails Form.email (lit "a@b.co") = false
  /\ Form.fails Form.email (lit "abc") = true
  /\ Form.validateField (Form.Input (lit "a@b.co") "email" true) true = false
  /\ Form.validateField (Form.Input (lit "abc") "email" true) false = true.
Proof.
  assert (forall v, test Form.emailRegex (trim v)
                    = Form.spec_email v && Form.no_space (trim v)) as R.
  { intros v. unfold Form.spec_email. apply emailRegex_rule. }
  split; [|split].
  - intros v. simpl. now rewrite R.
  - intros v had_error. unfold Form.validateField. simpl.
    rewrite R. destruct (is_empty (trim v)) eqn:E.
    + unfold Form.spec_email. now rewrite E.
    + now destruct (_ && _).
  - vm_compute. auto.
Qed.

(** ** The number of guests *)

Section GuestsNumber.

Lemma ToNumber_blank (v : ustring) : is_empty (trim v) = true -> ToNumber v = Fin 0.
Proof. unfold ToNumber. destruct (trim v); [reflexivity | discriminate]. Qed.

Lemma trim_nil_empty (v : ustring) : is_empty v = true -> is_empty (trim v) = true.
Proof. destruct v; [reflexivity | discriminate]. Qed.

Lemma positive_not_blank (v : ustring) :
  gt (ToNumber v) (Fin 0) = true -> is_empty (trim v) = false.
Proof.
  intros H. destruct (is_empty (trim v)) eqn:E; [|reflexivity].
  rewrite (ToNumber_blank v E) in H. discriminate.
Qed.

Lemma ge_not_lt (x y : float) :
  x <> FNaN -> y <> FNaN -> ge x y = negb (lt x y).
Proof. destruct x, y; simpl; congruence. Qed.

End GuestsNumber.

(** The conversion on a few strings: surrounding whitespace, rounding to
    the nearest double, underflow and overflow, a radix prefix, no
    number. *)
Example ToNumber_examples :
  ToNumber (lit " 42 ") = Fin 42
  /\ ToNumber (lit "") = Fin 0
  /\ ToNumber (lit "0.1") = Fin (3602879701896397 # 36028797018963968)
  /\ ToNumber (lit "-2.5e1") = Fin (-25)
  /\ ToNumber (lit "1e-400") = Fin 0
  /\ ToNumber (lit "1e400") = FInf false
  /\ ToNumber (lit "0x1F") = Fin 31
  /\ ToNumber (lit "12px") = FNaN.
Proof. vm_compute. auto 10. Qed.

(** A string without a numeric value gets through the guests check of the
    submit handler, since [NaN < 1] is false; [validateField] rejects
    it. *)
Example guests_not_a_number :
  Form.fails Form.guests (lit "abc") = false
  /\ Form.validateField (Form.Input (lit "abc") "number" true) false = true.
Proof. vm_compute. auto. Qed.

(** C4 (the code departs from the claim).  The number branch of
    [validateField] does what the claim says: for every string it passes
    exactly when the string is non-empty and its numeric value is greater
    than 0.  The guests test of the submit handler,
    [value === '' || value < 1], does not: ["0.5"] is non-empty, its
    numeric value 1/2 is greater than 0, and the submit handler rejects it
    while [validateField] accepts it.  Both reject ["0"] and accept
    ["5"]. *)
Theorem guests_check_on_blur_and_on_submit :
  (forall (v : ustring) (had_error : bool),
     Form.validateField (Form.Input v "number" true) had_error = false
     <-> is_empty v = false /\ gt (ToNumber v) (Fin 0) = true)
  /\ (Form.validateField (Form.Input (lit "0") "number" true) false = true
      /\ Form.fails Form.guests (lit "0") = true
      /\ Form.validateField (Form.Input (lit "5") "number" true) true = false
      /\ Form.fails Form.guests (lit "5") = false)
  /\ (is_empty (lit "0.5") = false
      /\ ToNumber (lit "0.5") = Fin (1 # 2)
      /\ gt (ToNumber (lit "0.5")) (Fin 0) = true
      /\ Form.validateField (Form.Input (lit "0.5") "number" true) true = false
      /\ Form.fails Form.guests (lit "0.5") = true).
Proof.
  split; [|split].
  - intros v had_error.
    unfold Form.validateField. cbn -[gt ToNumber trim is_empty]. split.
    + intros H. destruct (is_empty (trim v)) eqn:E; [discriminate|].
      destruct (gt (ToNumber v) (Fin 0)) eqn:G; [|discriminate].
      split; [|reflexivity].
      destruct (is_empty v) eqn:Ev; [|reflexivity].
      apply trim_nil_empty in Ev. congruence.
    + intros [_ G]. now rewrite (positive_not_blank v G), G.
  - vm_compute. auto.
  - vm_compute. auto 6.
Qed.

(** ** The whole form *)

Section WholeForm.

Import Form.

(** After the handler, a group carries [error] exactly when the test of
    its field fired, and the form is valid when none did. *)
Lemma submit_groups (fm : form) :
  (forall f, groups (submit fm) f = fails f (value fm f))
  /\ isValid (submit fm)
     = forallb (fun f => negb (fails f (value fm f))) all_fields
  /\ defaultPrevented (submit fm) = true
  /\ popupShown (submit fm) = isValid (submit fm).
Proof.
  unfold submit, check, all_fields, add_error. cbn [forallb].
  destruct (fails name _) eqn:E1, (fails email _) eqn:E2,
           (fails phone _) eqn:E3, (fails eventDate _) eqn:E4,
           (fails guests _) eqn:E5, (fails message _) eqn:E6;
    cbn [fst snd negb andb isValid groups defaultPrevented popupShown];
    (split; [intros []; rewrite ?E1, ?E2, ?E3, ?E4, ?E5, ?E6; reflexivity | auto]).
Qed.

(** An empty value fails the test of every field. *)
Lemma empty_fails (f : field) (v : ustring) :
  is_empty v = true -> fails f v = true.
Proof. destruct v; [|discriminate]. intros _. destruct f; reflexivity. Qed.

End WholeForm.

Section FieldRules.

Import Form FormRules.

(** A value of at least 1 is greater than 0. *)
Lemma ge_one_gt_zero (x : float) : ge x (Fin 1) = true -> gt x (Fin 0) = true.
Proof.
  destruct x as [|[]|q]; cbn; try discriminate; [reflexivity|].
  rewrite !negb_true_iff. intros H. apply negb_false_iff, Qle_bool_iff in H.
  apply not_true_iff_false. rewrite Qle_bool_iff. intros H0.
  pose proof (Qle_trans _ _ _ H H0) as H1. now apply H1.
Qed.

(** The narrower rules imply those of the specification. *)
Lemma rule_spec_rule (f : field) (v : ustring) :
  rule f v = true -> spec_rule f v = true.
Proof.
  destruct f; cbn [rule spec_rule]; auto.
  - intros H. now apply andb_true_iff in H as [H _].
  - intros H. apply andb_true_iff in H as [H1 H2].
    rewrite H1. now apply ge_one_gt_zero.
Qed.

(** A value that meets its rule passes the test of the submit handler. *)
Lemma rule_passes (f : field) (v : ustring) :
  rule f v = true -> fails f v = false.
Proof.
  destruct f; cbn [rule fails]; intros H.
  - now apply negb_true_iff.
  - apply negb_false_iff. rewrite <- H. unfold spec_email. apply emailRegex_rule.
  - now apply negb_true_iff.
  - apply negb_true_iff in H. destruct (is_empty v) eqn:E; [|reflexivity].
    apply trim_nil_empty in E. congruence.
  - apply andb_true_iff in H as [H1 H2]. apply negb_true_iff in H1. rewrite H1.
    cbn [orb]. destruct (ToNumber v) as [| |q] eqn:E; try discriminate.
    + rewrite ge_not_lt in H2 by discriminate. now apply negb_true_iff.
    + rewrite ge_not_lt in H2 by discriminate. now apply negb_true_iff.
  - now apply negb_true_iff.
Qed.

End FieldRules.

(** C6, as the claim states it, fails.  In the first form name and phone
    are empty and the other four values meet the rules of the
    specification, the e-mail ["a@b c.d"] among them; the submit handler
    marks three groups, that of the e-mail too.  In the second the e-mail
    is ["a@b.co"] and the number of guests ["0.5"], greater than 0; the
    group of the guests is the third one marked. *)
Lemma submit_marks_a_third_field :
  let values email_value guests_value := fun f =>
    match f with
    | Form.name => []
    | Form.email => lit email_value
    | Form.phone => []
    | Form.eventDate => lit "2026-05-01"
    | Form.guests => lit guests_value
    | Form.message => lit "hello"
    end in
  let fm1 := Form.Form_ (values "a@b c.d" "5") (fun _ => false) in
  let fm2 := Form.Form_ (values "a@b.co" "0.5") (fun _ => false) in
  (forallb (fun f => Bool.eqb (is_empty (Form.value fm1 f))
                        (bool_decide (f = Form.name \/ f = Form.phone)))
           Form.all_fields = true
   /\ forallb (fun f => is_empty (Form.value fm1 f)
                        || FormRules.spec_rule f (Form.value fm1 f))
              Form.all_fields = true
   /\ Form.groups (Form.submit fm1) Form.name = true
   /\ Form.groups (Form.submit fm1) Form.phone = true
   /\ Form.groups (Form.submit fm1) Form.email = true)
  /\ (forallb (fun f => Bool.eqb (is_empty (Form.value fm2 f))
                           (bool_decide (f = Form.name \/ f = Form.phone)))
              Form.all_fields = true
      /\ forallb (fun f => is_empty (Form.value fm2 f)
                           || FormRules.spec_rule f (Form.value fm2 f))
                 Form.all_fields = true
      /\ Form.groups (Form.submit fm2) Form.name = true
      /\ Form.groups (Form.submit fm2) Form.phone = true
      /\ Form.groups (Form.submit fm2) Form.guests = true).
Proof. vm_compute. auto 12. Qed.

(** C6, amended.  When exactly two of the six fields are empty and each
    of the other four meets its rule (text and date non-empty after
    trimming; the e-mail as the specification words it and free of
    whitespace; the number of guests non-empty and at least 1), the submit
    handler finds the form invalid (and shows no popup), and afterwards the
    groups carrying [error] are exactly those of the two empty fields,
    whatever was marked before. *)
Theorem submit_marks_exactly_the_empty_fields
    (fm : Form.form) (f1 f2 : Form.field) :
  f1 <> f2 ->
  (forall f, is_empty (Form.value fm f) = true <-> f = f1 \/ f = f2) ->
  (forall f, f <> f1 -> f <> f2 ->
             FormRules.rule f (Form.value fm f) = true) ->
  Form.isValid (Form.submit fm) = false
  /\ Form.popupShown (Form.submit fm) = false
  /\ (forall f, Form.groups (Form.submit fm) f = true <-> f = f1 \/ f = f2).
Proof.
  intros Hne Hempty Hok.
  destruct (submit_groups fm) as (G & V & _ & P).
  assert (forall f, Form.fails f (Form.value fm f) = true <-> f = f1 \/ f = f2) as F.
  { intros f. split.
    - intros Hf. destruct (decide (f = f1)) as [|n1]; [auto|].
      destruct (decide (f = f2)) as [|n2]; [auto|].
      rewrite (rule_passes f _ (Hok f n1 n2)) in Hf. discriminate.
    - intros Hf. apply empty_fails, Hempty, Hf. }
  assert (Form.isValid (Form.submit fm) = false) as I.
  { rewrite V. apply not_true_is_false. intros A.
    rewrite forallb_forall in A.
    assert (In f1 Form.all_fields) as Hin by (destruct f1; simpl; tauto).
    apply A in Hin. rewrite (proj2 (F f1)) in Hin by auto. discriminate. }
  split; [exact I|]. split; [now rewrite P|].
  intros f. rewrite G. apply F.
Qed.

Lemma submit_marks_exactly_the_empty_fields_witness :
  let fm := Form.Form_
    (fun f => match f with
              | Form.name => lit "Ada"
              | Form.email => lit "a@b.co"
              | Form.phone => []
              | Form.eventDate => lit "2026-05-01"
              | Form.guests => lit "5"
              | Form.message => []
              end)
    (fun _ => true) in
  Form.isValid (Form.submit fm) = false
  /\ Form.popupShown (Form.submit fm) = false
  /\ (forall f, Form.groups (Form.submit fm) f = true
                <-> f = Form.phone \/ f = Form.message).
Proof.
  intros fm.
  apply (submit_marks_exactly_the_empty_fields fm Form.phone Form.message).
  - discriminate.
  - intros f. destruct f; cbn; split; intros H;
      try discriminate; try reflexivity; auto;
      destruct H as [H|H]; discriminate.
  - intros f n1 n2. destruct f; try (vm_compute; reflexivity); congruence.
Defined.

(** ** Reviews banner *)

(** C7.  After [checkBannerVisibility] the banner carries [visible]
    exactly when [scrollY >= start.top - viewportHeight/2] and
    [scrollY < end.top + end.height/2].  With [start.top = 1000] and a
    viewport 800 high, the first condition holds at scroll offset 650 and
    fails at 500. *)
Theorem banner_visible_iff :
  (forall (m : Banner.measures) (b : Banner.banner),
     "visible"%string ∈ Banner.classes (Banner.checkBannerVisibility m b)
     <-> (inject_Z (Banner.doveSiamo_offsetTop m)
            - inject_Z (Banner.innerHeight m) / 2 <= Banner.scrollY m
          /\ Banner.scrollY m
             < inject_Z (Banner.contact_offsetTop m)
               + inject_Z (Banner.contact_offsetHeight m) / 2)%Q)
  /\ (forall top height : Z,
        Banner.pastDoveSiamo (Banner.Measures 650 800 1000 top height) = true
        /\ Banner.pastDoveSiamo (Banner.Measures 500 800 1000 top height) = false).
Proof.
  split.
  - intros m b. unfold Banner.checkBannerVisibility.
    rewrite <- Qle_bool_iff.
    assert (Banner.beforeContactMiddle m = true
            <-> (Banner.scrollY m < Banner.contactMiddle m)%Q) as Hb.
    { unfold Banner.beforeContactMiddle. rewrite negb_true_iff.
      rewrite <- not_true_iff_false, Qle_bool_iff. split.
      - apply Qnot_le_lt.
      - apply Qlt_not_le. }
    fold (Banner.pastDoveSiamo m). unfold Banner.contactMiddle in Hb. rewrite <- Hb.
    clear Hb.
    destruct (Banner.pastDoveSiamo m), (Banner.beforeContactMiddle m); simpl.
    + split; [auto | intros _; apply elem_of_union_l, elem_of_singleton; reflexivity].
    + split; [intros H%elem_of_difference | intros [_ H]; discriminate].
      destruct H as [_ H]. contradict H. now apply elem_of_singleton.
    + split; [intros H%elem_of_difference | intros [H _]; discriminate].
      destruct H as [_ H]. contradict H. now apply elem_of_singleton.
    + split; [intros H%elem_of_difference | intros [H _]; discriminate].
      destruct H as [_ H]. contradict H. now apply elem_of_singleton.
  - intros top height. split; reflexivity.
Qed.

Section BannerClosed.

Import Banner.

Lemma check_keeps_display (m : measures) (b : banner) :
  style_display (checkBannerVisibility m b) = style_display b.
Proof. unfold checkBannerVisibility. now destruct (_ && _). Qed.

Lemma display_none_stays (es : list event) (b : banner) :
  style_display b = "none"%string -> style_display (run es b) = "none"%string.
Proof.
  revert b. induction es as [|e es IH]; intros b H; [exact H|].
  unfold run. simpl. apply IH. destruct e; simpl.
  - now rewrite check_keeps_display.
  - reflexivity.
Qed.

End BannerClosed.

(** C9.  A click on the close button takes [visible] off and sets the
    inline [display] to [none]; a scroll handler run never writes
    [display]; hence after the click, whatever scroll events (or further
    clicks) follow, [display] is still [none] and the banner does not
    show. *)
Theorem banner_closed_for_good :
  forall (es : list Banner.event) (b : Banner.banner),
    Banner.style_display (Banner.reviewClose_click b) = "none"%string
    /\ ("visible"%string ∉ Banner.classes (Banner.reviewClose_click b))
    /\ (forall m b', Banner.style_display (Banner.checkBannerVisibility m b')
                     = Banner.style_display b')
    /\ Banner.style_display (Banner.run es (Banner.reviewClose_click b))
       = "none"%string
    /\ Banner.shown (Banner.run es (Banner.reviewClose_click b)) = false.
Proof.
  intros es b.
  pose proof (display_none_stays es (Banner.reviewClose_click b) eq_refl) as H.
  split; [reflexivity|].
  split; [simpl; intros [_ N]%elem_of_difference; apply N; now apply elem_of_singleton|].
  split; [apply check_keeps_display|]. split; [exact H|].
  unfold Banner.shown. now rewrite H.
Qed.

(** ** Layout tabs *)

Section LayoutTabs.

Import Layout.

Implicit Types (d : nat -> element) (n t : nat).

Lemma has_active_add (e : element) : has_active (classList_add "active" e).
Proof. apply elem_of_union_l, elem_of_singleton. reflexivity. Qed.

Lemma has_active_remove (e : element) :
  ~ has_active (classList_remove "active" e).
Proof.
  intros [_ H]%elem_of_difference. apply H. now apply elem_of_singleton.
Qed.

Lemma update_same f n d : update f n d n = f (d n).
Proof. unfold update. now rewrite decide_True. Qed.

Lemma update_other f n m d : m <> n -> update f n d m = d m.
Proof. intros H. unfold update. now rewrite decide_False. Qed.

Lemma update_attributes f n d m :
  (forall e, attributes (f e) = attributes e) ->
  attributes (update f n d m) = attributes (d m).
Proof. intros H. unfold update. destruct (decide (m = n)); [apply H | reflexivity]. Qed.

(** The first loop: [active] is taken off every tab, nothing else
    changes. *)
Lemma clear_tabs (tabs : list nat) d n :
  let d' := fold_left (fun d t => update (classList_remove "active") t d) tabs d in
  attributes (d' n) = attributes (d n)
  /\ (In n tabs -> ~ has_active (d' n))
  /\ (~ In n tabs -> d' n = d n).
Proof.
  revert d. induction tabs as [|t tabs IH]; intros d; simpl; [tauto|].
  destruct (IH (update (classList_remove "active") t d)) as (A & B & C).
  split; [|split].
  - rewrite A. now apply update_attributes.
  - intros [->|H]; [|exact (B H)].
    destruct (in_dec Nat.eq_dec n tabs) as [H|H]; [exact (B H)|].
    rewrite (C H), update_same. apply has_active_remove.
  - intros H. rewrite C by tauto. apply update_other. intros ->. tauto.
Qed.

Lemma show_display_attributes lt d display n :
  attributes (show_display lt d display n) = attributes (d n).
Proof.
  unfold show_display. destruct (decide _); now apply update_attributes.
Qed.

(** The second loop: a display carries [active] afterwards exactly when
    its [data-layout] is that of the tab; other nodes are untouched. *)
Lemma show_displays lt (displays : list nat) d n :
  let d' := fold_left (show_display lt) displays d in
  attributes (d' n) = attributes (d n)
  /\ (In n displays ->
      (has_active (d' n) <-> getAttribute "data-layout" (d n) = lt))
  /\ (~ In n displays -> d' n = d n).
Proof.
  revert d. induction displays as [|x displays IH]; intros d; simpl; [tauto|].
  destruct (IH (show_display lt d x)) as (A & B & C).
  split; [|split].
  - rewrite A. apply show_display_attributes.
  - intros Hin.
    destruct (in_dec Nat.eq_dec n displays) as [H|H].
    + rewrite (B H). unfold getAttribute. now rewrite show_display_attributes.
    + destruct Hin as [->|Hin]; [|tauto].
      rewrite (C H). unfold show_display.
      destruct (decide _) as [E|E]; rewrite update_same.
      * split; [auto | intros _; apply has_active_add].
      * split; [intros F; now apply has_active_remove in F | tauto].
  - intros H. rewrite C by tauto. unfold show_display.
    destruct (decide _); apply update_other; intros ->; tauto.
Qed.

Lemma is_active_iff (p : page) n :
  is_active p n = true <-> has_active (dom p n).
Proof. unfold is_active, classList_contains. apply bool_decide_eq_true. Qed.

Lemma tab_click_lists tab (p : page) :
  layoutTabs (tab_click tab p) = layoutTabs p
  /\ layoutDisplays (tab_click tab p) = layoutDisplays p.
Proof. split; reflexivity. Qed.

Lemma run_lists (clicks : list nat) (p : page) :
  layoutTabs (run clicks p) = layoutTabs p
  /\ layoutDisplays (run clicks p) = layoutDisplays p.
Proof.
  revert p. induction clicks as [|c clicks IH]; intros p; [split; reflexivity|].
  unfold run. simpl. apply (IH (tab_click c p)).
Qed.

Lemma tab_click_attributes tab (p : page) n :
  attributes (dom (tab_click tab p) n) = attributes (dom p n).
Proof.
  unfold tab_click. cbn [dom].
  destruct (show_displays (getAttribute "data-layout" (dom p tab))
              (layoutDisplays p)
              (update (classList_add "active") tab
                 (fold_left (fun d t => update (classList_remove "active") t d)
                            (layoutTabs p) (dom p))) n) as (A & _).
  rewrite A. rewrite update_attributes by reflexivity.
  now destruct (clear_tabs (layoutTabs p) (dom p) n) as (B & _).
Qed.

(** One click. *)
Lemma tab_click_state tab (p : page) :
  (forall n, In n (layoutDisplays p) ->
     (is_active (tab_click tab p) n = true
      <-> getAttribute "data-layout" (dom p n)
          = getAttribute "data-layout" (dom p tab)))
  /\ (forall n, In n (layoutTabs p) -> ~ In n (layoutDisplays p) ->
        (is_active (tab_click tab p) n = true <-> n = tab))
  /\ (~ In tab (layoutDisplays p) -> is_active (tab_click tab p) tab = true).
Proof.
  set (d1 := fold_left (fun d t => update (classList_remove "active") t d)
                       (layoutTabs p) (dom p)).
  set (d2 := update (classList_add "active") tab d1).
  assert (forall n, attributes (d2 n) = attributes (dom p n)) as Hattr.
  { intros n. unfold d2. rewrite update_attributes by reflexivity.
    now destruct (clear_tabs (layoutTabs p) (dom p) n) as (B & _). }
  split; [|split].
  - intros n Hn. rewrite is_active_iff. unfold tab_click. cbn [dom]. fold d1 d2.
    destruct (show_displays (getAttribute "data-layout" (dom p tab))
                (layoutDisplays p) d2 n) as (_ & B & _).
    rewrite (B Hn). unfold getAttribute. now rewrite Hattr.
  - intros n Ht Hd. rewrite is_active_iff. unfold tab_click. cbn [dom]. fold d1 d2.
    destruct (show_displays (getAttribute "data-layout" (dom p tab))
                (layoutDisplays p) d2 n) as (_ & _ & C).
    rewrite (C Hd). unfold d2. destruct (decide (n = tab)) as [->|Hne].
    + rewrite update_same. split; [auto | intros _; apply has_active_add].
    + rewrite update_other by exact Hne. split; [|tauto].
      intros F. now destruct (clear_tabs (layoutTabs p) (dom p) n) as (_ & B & _);
        apply B in F.
  - intros Hd. rewrite is_active_iff. unfold tab_click. cbn [dom]. fold d1 d2.
    destruct (show_displays (getAttribute "data-layout" (dom p tab))
                (layoutDisplays p) d2 tab) as (_ & _ & C).
    rewrite (C Hd). unfold d2. rewrite update_same. apply has_active_add.
Qed.

End LayoutTabs.

(** C10.  On a page whose tabs and displays are different elements, after
    a click on a tab, whatever the classes were and whatever was clicked
    before: the clicked tab carries [active] and no other tab does, and a
    display carries [active] exactly when its [data-layout] equals that of
    the clicked tab. *)
Theorem tab_click_is_exclusive
    (p : Layout.page) (clicks : list nat) (tab : nat) :
  In tab (Layout.layoutTabs p) ->
  (forall n, In n (Layout.layoutTabs p) -> ~ In n (Layout.layoutDisplays p)) ->
  let p' := Layout.run (clicks ++ [tab]) p in
  (forall t, In t (Layout.layoutTabs p) ->
     (Layout.is_active p' t = true <-> t = tab))
  /\ (forall n, In n (Layout.layoutDisplays p) ->
        (Layout.is_active p' n = true
         <-> getAttribute "data-layout" (Layout.dom p' n)
             = getAttribute "data-layout" (Layout.dom p' tab))).
Proof.
  intros Htab Hdisj p'.
  assert (p' = Layout.tab_click tab (Layout.run clicks p)) as ->.
  { unfold p', Layout.run. now rewrite fold_left_app. }
  destruct (run_lists clicks p) as [Lt Ld].
  destruct (tab_click_state tab (Layout.run clicks p)) as (A & B & _).
  rewrite Lt, Ld in *. split.
  - intros t Ht. apply B; auto.
  - intros n Hn. rewrite (A n Hn). unfold getAttribute.
    now rewrite !tab_click_attributes.
Qed.

Lemma tab_click_is_exclusive_witness :
  let tab_a := Element {[ "data-layout"%string := "theatre"%string ]} ∅ in
  let tab_b := Element {[ "data-layout"%string := "banquet"%string ]}
                       {[ "active"%string ]} in
  let p := Layout.Page
    (fun n => match n with
              | 0%nat | 2%nat => tab_a
              | _ => tab_b
              end)
    [0%nat; 1%nat] [2%nat; 3%nat] in
  (Layout.is_active (Layout.run ([1%nat] ++ [0%nat]) p) 0%nat = true
   <-> 0%nat = 0%nat)
  /\ (Layout.is_active (Layout.run ([1%nat] ++ [0%nat]) p) 1%nat = true
      <-> 1%nat = 0%nat).
Proof.
  intros tab_a tab_b p.
  assert (In 0%nat (Layout.layoutTabs p)) as H0 by (simpl; auto).
  assert (In 1%nat (Layout.layoutTabs p)) as H1 by (simpl; auto).
  assert (forall n, In n (Layout.layoutTabs p) -> ~ In n (Layout.layoutDisplays p))
    as Hd.
  { simpl. intros n [<-|[<-|[]]] [H|[H|[]]]; discriminate H. }
  split.
  - exact (proj1 (tab_click_is_exclusive p [1%nat] 0%nat H0 Hd) 0%nat H0).
  - exact (proj1 (tab_click_is_exclusive p [1%nat] 0%nat H0 Hd) 1%nat H1).
Defined.

(** ** The auto-advance timer of the slider *)

Section AutoAdvance.

Import Slider.

Lemma div_interval (a q : Z) : 8000 * q <= a < 8000 * (q + 1) -> a / 8000 = q.
Proof. intros H. symmetry. apply (Z.div_unique a 8000 q (a - 8000 * q)); lia. Qed.

Lemma next_mod (z n : Z) :
  0 <= z < n -> (if z + 1 =? n then 0 else z + 1) = (z + 1) mod n.
Proof.
  intros H. destruct (z + 1 =? n) eqn:E.
  - apply Z.eqb_eq in E. rewrite E. symmetry. apply Z.mod_same. lia.
  - apply Z.eqb_neq in E. symmetry. apply Z.mod_small. lia.
Qed.

(** One millisecond of a running slider. *)
Lemma tick_running (s : state) (d : Z) :
  running s d ->
  now (tick s) = now s + 1
  /\ List.length (storiaSliderImages (tick s))
     = List.length (storiaSliderImages s)
  /\ if d =? now s + 1
     then running (tick s) (d + 8000)
          /\ auto_advances (tick s) = S (auto_advances s)
          /\ currentSlideIndex (tick s) = currentSlideIndex (showNextSlide s)
     else running (tick s) d
          /\ auto_advances (tick s) = auto_advances s
          /\ currentSlideIndex (tick s) = currentSlideIndex s.
Proof.
  intros (Hl & id & Ht & Hi). unfold tick. rewrite Ht. cbn [List.filter due].
  destruct (d =? now s + 1) eqn:E; cbn [List.length Nat.iter].
  - cbn [now storiaSliderImages auto_advances currentSlideIndex].
    split; [reflexivity|]. split; [apply showNextSlide_length|].
    split; [|split; reflexivity].
    split; [exact Hl|]. exists id. cbn. rewrite Ht. cbn. unfold reschedule. cbn.
    rewrite E. auto.
  - cbn [now storiaSliderImages auto_advances currentSlideIndex].
    split; [reflexivity|]. split; [reflexivity|].
    split; [|split; reflexivity].
    split; [exact Hl|]. exists id. cbn. rewrite Ht. cbn. unfold reschedule. cbn.
    rewrite E. auto.
Qed.

(** [n] milliseconds of a running slider whose timer is due at [d]: the
    timer has fired [c] times, at [d], [d + 8000], ... *)
Lemma elapse_running (n : nat) (s : state) (d : Z) :
  running s d -> now s < d <= now s + 8000 ->
  let c := (now s + Z.of_nat n - d) / 8000 + 1 in
  0 <= c
  /\ running (elapse n s) (d + 8000 * c)
  /\ now (elapse n s) = now s + Z.of_nat n
  /\ auto_advances (elapse n s) = (auto_advances s + Z.to_nat c)%nat
  /\ List.length (storiaSliderImages (elapse n s))
     = List.length (storiaSliderImages s)
  /\ (forall z, currentSlideIndex s = Int z ->
        0 <= z < Z.of_nat (List.length (storiaSliderImages s)) ->
        currentSlideIndex (elapse n s)
        = Int ((z + c) mod Z.of_nat (List.length (storiaSliderImages s)))).
Proof.
  intros Hr Hd. induction n as [|n IH].
  - cbn zeta. rewrite (div_interval _ (-1)) by lia.
    change (elapse 0 s) with s. change (-1 + 1) with 0.
    replace (d + 8000 * 0) with d by lia.
    split; [lia|]. split; [exact Hr|]. split; [lia|].
    split; [change (Z.to_nat 0) with 0%nat; lia|].
    split; [reflexivity|]. intros z Hz Hzr. rewrite Hz. f_equal.
    rewrite Z.add_0_r, Z.mod_small; lia.
  - cbn zeta in IH |- *.
    set (c := (now s + Z.of_nat n - d) / 8000 + 1) in *.
    destruct IH as (Hc & Hrun & Hnow & Hauto & Hlen & Hidx).
    assert (8000 * (c - 1) <= now s + Z.of_nat n - d < 8000 * c) as Hc'.
    { unfold c. pose proof (Z.div_mod (now s + Z.of_nat n - d) 8000 ltac:(lia)).
      pose proof (Z.mod_pos_bound (now s + Z.of_nat n - d) 8000 ltac:(lia)). lia. }
    change (elapse (S n) s) with (tick (elapse n s)).
    destruct (tick_running _ _ Hrun) as (Tnow & Tlen & T).
    rewrite Hnow in T, Tnow. rewrite Tlen, Hlen, Tnow.
    replace (now s + Z.of_nat (S n)) with (now s + Z.of_nat n + 1) by lia.
    destruct (d + 8000 * c =? now s + Z.of_nat n + 1) eqn:E.
    + apply Z.eqb_eq in E. destruct T as (Trun & Tauto & Tidx).
      rewrite (div_interval _ c) by lia.
      split; [lia|].
      split; [now replace (d + 8000 * (c + 1)) with (d + 8000 * c + 8000) by lia|].
      split; [reflexivity|].
      split; [rewrite Tauto, Hauto, Z2Nat.inj_add by lia; simpl; lia|].
      split; [reflexivity|]. intros z Hz Hzr.
      rewrite Tidx. specialize (Hidx z Hz Hzr).
      rewrite (showNextSlide_index _ _ Hidx); rewrite Hlen.
      * f_equal. rewrite next_mod by (apply Z.mod_pos_bound; lia).
        rewrite Z.add_mod_idemp_l by lia. f_equal. lia.
      * apply Z.mod_pos_bound. lia.
    + apply Z.eqb_neq in E. destruct T as (Trun & Tauto & Tidx).
      rewrite (div_interval _ (c - 1)) by lia.
      replace (c - 1 + 1) with c by lia.
      split; [lia|]. split; [exact Trun|]. split; [reflexivity|].
      split; [now rewrite Tauto|]. split; [reflexivity|].
      intros z Hz Hzr. rewrite Tidx. now apply Hidx.
Qed.

Lemma init_running (images dots : list element) (t0 : Z) :
  images <> [] -> running (init images dots t0) (t0 + 8000).
Proof.
  intros H. unfold init. destruct images as [|x images]; [congruence|].
  cbn. split; [reflexivity|]. exists 0%nat. auto.
Qed.

Lemma reset_running (s : state) (d : Z) :
  running s d ->
  running (resetSliderInterval s) (now s + 8000)
  /\ timers (resetSliderInterval s) = [Timer (next_id s) 8000 (now s + 8000)].
Proof.
  intros (Hl & id & Ht & Hi). unfold resetSliderInterval, setInterval, set_timers.
  cbn. rewrite Hi, Ht. cbn. rewrite Nat.eqb_refl. cbn.
  split; [|reflexivity]. split; [exact Hl|]. eauto.
Qed.

(** A manual interaction restarts the timer from the time of the click. *)
Lemma manual_running (e : event) (s : state) (d : Z) :
  running s d -> is_manual e s = true ->
  running (handle e s) (now s + 8000)
  /\ timers (handle e s) = [Timer (next_id s) 8000 (now s + 8000)]
  /\ now (handle e s) = now s
  /\ auto_advances (handle e s) = auto_advances s.
Proof.
  intros Hr Hm. pose proof Hr as (Hl & _).
  destruct e as [| |k|]; cbn [handle is_manual] in *; try discriminate;
    rewrite ?Hl, ?Hm; cbn [andb].
  - destruct (reset_running (showNextSlide s) d Hr) as [A B]. auto.
  - destruct (reset_running (showPrevSlide s) d Hr) as [A B]. auto.
  - destruct (reset_running (goToSlide (Int (Z.of_nat k)) s) d Hr) as [A B]. auto.
Qed.

(** Whatever happened since the page was set up, the slider has one timer,
    due within the next 8000 ms. *)
Lemma run_running (es : list event) (s : state) (d : Z) :
  running s d -> now s < d <= now s + 8000 ->
  exists d', running (run es s) d'
             /\ now (run es s) < d' <= now (run es s) + 8000.
Proof.
  revert s d. induction es as [|e es IH]; intros s d Hr Hd; [eauto|].
  unfold run. simpl. fold (run es (handle e s)).
  destruct (is_manual e s) eqn:Hm.
  - destruct (manual_running e s d Hr Hm) as (A & _ & B & _).
    apply (IH _ _ A). lia.
  - assert (handle e s = s \/ e = Tick) as [->| ->].
    { pose proof Hr as (Hl & _).
      destruct e; cbn in Hm |- *; try discriminate; [|auto].
      rewrite Hm, andb_false_r. auto. }
    + eauto.
    + cbn [handle]. destruct (tick_running s d Hr) as (Tn & _ & T).
      destruct (d =? now s + 1) eqn:E.
      * apply Z.eqb_eq in E. destruct T as (T & _). apply (IH _ _ T). lia.
      * apply Z.eqb_neq in E. destruct T as (T & _). apply (IH _ _ T). lia.
Qed.

End AutoAdvance.

(** C8.  Time is counted in milliseconds and a timer fires exactly when
    due.  On a page with slides, started at [t0]: with no interaction, after
    [n] ms the timer has called [showNextSlide] exactly [n / 8000] times
    (one advance per 8000 ms) and the index is [(n / 8000) mod N].  A click
    on an arrow or a dot at any later time [t], whatever happened before:
    afterwards the timer table holds one timer only, a new one due at
    [t + 8000] (the pending one is gone), and [n] ms later exactly
    [n / 8000] automatic advances have followed: none before [t + 8000],
    the first at [t + 8000]. *)
Theorem auto_advance_timer
    (images dots : list element) (t0 : Z) (es : list Slider.event)
    (e : Slider.event) (n : nat) :
  images <> [] ->
  Slider.is_manual e (Slider.run es (Slider.init images dots t0)) = true ->
  let s0 := Slider.init images dots t0 in
  let s := Slider.run es s0 in
  let s' := Slider.handle e s in
  Slider.auto_advances (Slider.elapse n s0) = Z.to_nat (Z.of_nat n / 8000)
  /\ Slider.currentSlideIndex (Slider.elapse n s0)
     = Int ((Z.of_nat n / 8000) mod Z.of_nat (List.length images))
  /\ Slider.timers s'
     = [Slider.Timer (Slider.next_id s) 8000 (Slider.now s + 8000)]
  /\ Slider.now s' = Slider.now s
  /\ Slider.auto_advances (Slider.elapse n s')
     = (Slider.auto_advances s' + Z.to_nat (Z.of_nat n / 8000))%nat.
Proof.
  intros Himg Hm s0 s s'.
  assert (forall a : Z, (a + Z.of_nat n - (a + 8000)) / 8000 + 1 = Z.of_nat n / 8000)
    as Hdiv.
  { intros a. replace (a + Z.of_nat n - (a + 8000))
      with (Z.of_nat n + (-1) * 8000) by lia.
    rewrite Z.div_add by lia. lia. }
  pose proof (init_running images dots t0 Himg) as R0.
  assert (Slider.now s0 = t0) as N0.
  { unfold s0, Slider.init. destruct images; [congruence | reflexivity]. }
  assert (Slider.now s0 < t0 + 8000 <= Slider.now s0 + 8000) as D0 by lia.
  destruct (elapse_running n s0 (t0 + 8000) R0 D0) as (_ & _ & _ & A0 & _ & I0).
  rewrite N0, Hdiv in A0, I0.
  destruct (run_running es s0 _ R0 D0) as (d & R & D). fold s in R, D.
  destruct (manual_running e s d R Hm) as (R' & T' & N' & A'). fold s' in R', T', N', A'.
  assert (Slider.now s' < Slider.now s + 8000 <= Slider.now s' + 8000) as D' by lia.
  destruct (elapse_running n s' _ R' D') as (_ & _ & _ & A1 & _).
  rewrite N', Hdiv in A1.
  split.
  { rewrite A0. unfold s0, Slider.init. destruct images; [congruence | reflexivity]. }
  split.
  { assert (Slider.storiaSliderImages s0 = images) as Ei.
    { unfold s0, Slider.init. destruct images; reflexivity. }
    rewrite Ei in I0. apply (I0 0).
    - unfold s0, Slider.init. destruct images; [congruence | reflexivity].
    - destruct images; [congruence | simpl; lia]. }
  auto.
Qed.

Lemma auto_advance_timer_witness :
  let el := Element ∅ ∅ in
  let s0 := Slider.init [el; el; el] [el; el; el] 0 in
  let s := Slider.run [Slider.Tick; Slider.Dot 2; Slider.Tick] s0 in
  Slider.timers (Slider.handle Slider.ArrowRight s)
  = [Slider.Timer (Slider.next_id s) 8000 (Slider.now s + 8000)].
Proof.
  intros el s0 s.
  refine (proj1 (proj2 (proj2
    (auto_advance_timer [el; el; el] [el; el; el] 0
       [Slider.Tick; Slider.Dot 2; Slider.Tick] Slider.ArrowRight 3 _ _)))).
  - discriminate.
  - reflexivity.
Defined.

(** * Further properties *)

(** ** What the slider shows *)

Section SliderShows.

Import Slider View.

Lemma strict_eq_Int (j : nat) (i : number) :
  strict_eq (Int (Z.of_nat j)) i = true <-> i = Int (Z.of_nat j).
Proof.
  destruct i as [|z]; simpl.
  - split; discriminate.
  - rewrite Z.eqb_eq. split; [intros ->; reflexivity | intros [= ->]; reflexivity].
Qed.

Lemma toggle_active (force : bool) (el : element) :
  "active"%string ∈ classList (classList_toggle "active" force el)
  <-> force = true.
Proof.
  destruct force; simpl.
  - split; [reflexivity | intros _; apply has_active_add].
  - split; [intros H; now apply has_active_remove in H | discriminate].
Qed.

Lemma toggle_other (force : bool) (el : element) (c : string) :
  c <> "active"%string ->
  (c ∈ classList (classList_toggle "active" force el) <-> c ∈ classList el).
Proof.
  intros Hc. destruct force; simpl.
  - rewrite elem_of_union, elem_of_singleton. tauto.
  - rewrite elem_of_difference, elem_of_singleton. tauto.
Qed.

Lemma toggle_attributes (force : bool) (el : element) :
  attributes (classList_toggle "active" force el) = attributes el.
Proof. now destruct force. Qed.

Lemma mark_only_current (i : number) (els : list element) :
  only_current i (mark i els).
Proof.
  intros j el H. unfold mark in H. rewrite list_lookup_imap in H.
  destruct (els !! j) as [el0|]; [|discriminate]. injection H as <-.
  rewrite toggle_active. apply strict_eq_Int.
Qed.

Lemma mark_same_but_active (i : number) (els : list element) :
  same_but_active els (mark i els).
Proof.
  split; [apply length_mark|]. intros j el H.
  exists (classList_toggle "active" (strict_eq (Int (Z.of_nat j)) i) el).
  split; [unfold mark; now rewrite list_lookup_imap, H|].
  split; [apply toggle_attributes|]. intros c Hc. now apply toggle_other.
Qed.

Lemma updateSlider_shows (s : state) : View.slider_shows (updateSlider s).
Proof. split; apply mark_only_current. Qed.

Lemma fire_shows (s : state) : View.slider_shows (fire s).
Proof. exact (updateSlider_shows _). Qed.

Lemma iter_fire_shows (n : nat) (s : state) :
  View.slider_shows s -> View.slider_shows (Nat.iter n fire s).
Proof. destruct n; [auto|]. intros _. simpl. apply fire_shows. Qed.

Lemma handle_shows (e : event) (s : state) :
  View.slider_shows s -> View.slider_shows (handle e s).
Proof.
  intros H. destruct e; cbn [handle].
  - destruct (listening s); [exact (updateSlider_shows _) | exact H].
  - destruct (listening s); [exact (updateSlider_shows _) | exact H].
  - destruct (_ && _); [exact (updateSlider_shows _) | exact H].
  - unfold tick. exact (iter_fire_shows _ s H).
Qed.

End SliderShows.

(** X1.  After [showNextSlide], [showPrevSlide] or [goToSlide] exactly the
    slide at the index, and exactly the dot at the index, carries
    [active]; the list of slides and the list of dots keep their lengths,
    and the attributes and all other classes of every slide and of every
    dot are as before.  Once slides and dots show the index they do after
    every later event (clicks and timer ticks). *)
Theorem slider_shows_exactly_the_current_slide :
  (forall (s : Slider.state) (i : number),
     View.slider_shows (Slider.showNextSlide s)
     /\ View.slider_shows (Slider.showPrevSlide s)
     /\ View.slider_shows (Slider.goToSlide i s)
     /\ View.same_but_active (Slider.storiaSliderImages s)
          (Slider.storiaSliderImages (Slider.goToSlide i s))
     /\ View.same_but_active (Slider.storiaSliderImages s)
          (Slider.storiaSliderImages (Slider.showNextSlide s))
     /\ View.same_but_active (Slider.storiaSliderImages s)
          (Slider.storiaSliderImages (Slider.showPrevSlide s))
     /\ View.same_but_active (Slider.sliderDots s)
          (Slider.sliderDots (Slider.goToSlide i s))
     /\ View.same_but_active (Slider.sliderDots s)
          (Slider.sliderDots (Slider.showNextSlide s))
     /\ View.same_but_active (Slider.sliderDots s)
          (Slider.sliderDots (Slider.showPrevSlide s)))
  /\ (forall (es : list Slider.event) (s : Slider.state),
        View.slider_shows s -> View.slider_shows (Slider.run es s)).
Proof.
  split.
  - intros s i.
    split; [exact (updateSlider_shows _)|].
    split; [exact (updateSlider_shows _)|].
    split; [exact (updateSlider_shows _)|].
    repeat (split; [exact (mark_same_but_active _ _)|]).
    exact (mark_same_but_active _ _).
  - intros es. induction es as [|e es IH]; intros s H; [exact H|].
    unfold Slider.run. simpl. apply IH. now apply handle_shows.
Qed.

Lemma slider_shows_exactly_the_current_slide_witness :
  let el := Element ∅ ∅ in
  let s := Slider.showNextSlide (Slider.init [el; el; el] [el; el; el] 0) in
  View.slider_shows (Slider.run [Slider.Tick; Slider.ArrowLeft; Slider.Dot 2] s).
Proof.
  intros el s.
  apply (proj2 slider_shows_exactly_the_current_slide).
  exact (proj1 (proj1 slider_shows_exactly_the_current_slide
                  (Slider.init [el; el; el] [el; el; el] 0) NaN)).
Defined.

Section SliderRecovers.

Import Slider.

Lemma showNextSlide_recovers (s : state) (z : Z) :
  currentSlideIndex s = Int z -> 0 <= z -> storiaSliderImages s <> [] ->
  slider_ok (showNextSlide s) /\ slider_ok (showPrevSlide s).
Proof.
  intros Hi Hz Hn.
  assert (0 < Z.of_nat (List.length (storiaSliderImages s))) as HN
    by (destruct (storiaSliderImages s); [congruence | simpl; lia]).
  unfold slider_ok. rewrite showNextSlide_length, showPrevSlide_length.
  unfold showNextSlide, showPrevSlide, Js.length. rewrite Hi.
  cbn [updateSlider set_index currentSlideIndex add sub rem].
  destruct (Z.of_nat _ =? 0) eqn:E; [apply Z.eqb_eq in E; lia|].
  split; apply is_index_Int; rewrite Z.rem_mod_nonneg by lia;
    apply Z.mod_pos_bound; lia.
Qed.

End SliderRecovers.

(** X2.  A jump to a position at or beyond the number of slides (a dot
    without a slide) leaves no slide marked [active]; the next or previous
    step after it lands on a slide again. *)
Theorem slider_blank_after_jump_beyond (s : Slider.state) (k : Z) :
  Z.of_nat (List.length (Slider.storiaSliderImages s)) <= k ->
  Slider.storiaSliderImages s <> [] ->
  let s1 := Slider.goToSlide (Int k) s in
  (forall (j : nat) (el : element),
     Slider.storiaSliderImages s1 !! j = Some el ->
     "active"%string ∉ classList el)
  /\ Slider.slider_ok (Slider.showNextSlide s1)
  /\ Slider.slider_ok (Slider.showPrevSlide s1).
Proof.
  intros Hk Hn s1. split.
  - intros j el H Hact.
    apply (mark_only_current (Int k) (Slider.storiaSliderImages s) j el H) in Hact.
    injection Hact as ->. apply lookup_lt_Some in H.
    change (Slider.storiaSliderImages s1)
      with (Slider.mark (Int (Z.of_nat j)) (Slider.storiaSliderImages s)) in H.
    rewrite length_mark in H. lia.
  - apply (showNextSlide_recovers s1 k); [reflexivity | lia |].
    change (Slider.storiaSliderImages s1)
      with (Slider.mark (Int k) (Slider.storiaSliderImages s)).
    intros E. apply (f_equal List.length) in E.
    rewrite length_mark in E. destruct (Slider.storiaSliderImages s); [congruence | discriminate].
Qed.

Lemma slider_blank_after_jump_beyond_witness :
  let el := Element ∅ ∅ in
  let s := Slider.init [el; el] [el; el; el] 0 in
  Slider.slider_ok (Slider.showNextSlide (Slider.goToSlide (Int 2) s)).
Proof.
  intros el s.
  refine (proj1 (proj2 (slider_blank_after_jump_beyond s 2 _ _))).
  - simpl. lia.
  - discriminate.
Defined.

(** ** Where a sequence of steps ends *)

Section NetSteps.

Lemma prev_mod (z n : Z) :
  0 <= z < n -> (if z =? 0 then n - 1 else z - 1) = (z - 1) mod n.
Proof.
  intros H. destruct (z =? 0) eqn:E.
  - apply Z.eqb_eq in E. subst z. symmetry.
    replace (0 - 1) with (n - 1 + (-1) * n) by lia.
    rewrite Z.mod_add by lia. apply Z.mod_small. lia.
  - apply Z.eqb_neq in E. symmetry. apply Z.mod_small. lia.
Qed.

Lemma lightbox_run_net (os : list Lightbox.op) (s : Lightbox.state) (z : Z) :
  Lightbox.currentImageIndex s = Int z ->
  0 <= z < Z.of_nat (List.length (Lightbox.galleryImages s)) ->
  fst (Lightbox.run os s) = false
  /\ Lightbox.currentImageIndex (snd (Lightbox.run os s))
     = Int ((z + View.lightbox_net os)
            mod Z.of_nat (List.length (Lightbox.galleryImages s))).
Proof.
  revert s z. induction os as [|o os IH]; intros s z Hi Hz; simpl.
  - split; [reflexivity|]. rewrite Hi, Z.add_0_r, Z.mod_small; auto.
  - set (n := Z.of_nat (List.length (Lightbox.galleryImages s))) in *.
    assert (exists s' z', Lightbox.step o s = (Normal, s')
              /\ Lightbox.currentImageIndex s' = Int z'
              /\ z' = (z + match o with Lightbox.Next => 1 | Lightbox.Prev => -1 end) mod n
              /\ Lightbox.galleryImages s' = Lightbox.galleryImages s)
      as (s' & z' & E & Hi' & Hz' & Hg).
    { destruct o; simpl.
      - destruct (showNextImage_ok s z Hi Hz) as (s' & E & Ei & Eg).
        exists s', ((z + 1) mod n). fold n in Ei. now rewrite next_mod in Ei by exact Hz.
      - destruct (showPrevImage_ok s z Hi Hz) as (s' & E & Ei & Eg).
        exists s', ((z + -1) mod n). fold n in Ei. now rewrite prev_mod in Ei by exact Hz. }
    rewrite E.
    assert (0 <= z' < n) as Hb by (subst z'; apply Z.mod_pos_bound; lia).
    destruct (IH s' z' Hi') as (A & B); [now rewrite Hg|].
    destruct (Lightbox.run os s') as [t s'']. simpl in *.
    split; [exact A|]. rewrite B, Hg. fold n. f_equal. subst z'.
    rewrite Z.add_mod_idemp_l by lia. f_equal. destruct o; lia.
Qed.

Lemma slider_run_net (os : list Slider.op) (s : Slider.state) (z : Z) :
  Slider.currentSlideIndex s = Int z ->
  0 <= z < Z.of_nat (List.length (Slider.storiaSliderImages s)) ->
  Slider.currentSlideIndex (fold_left (fun s o => Slider.step o s) os s)
  = Int ((z + View.slider_net os)
         mod Z.of_nat (List.length (Slider.storiaSliderImages s))).
Proof.
  revert s z. induction os as [|o os IH]; intros s z Hi Hz; simpl.
  - rewrite Hi, Z.add_0_r, Z.mod_small; auto.
  - set (n := Z.of_nat (List.length (Slider.storiaSliderImages s))) in *.
    assert (Slider.currentSlideIndex (Slider.step o s)
            = Int ((z + match o with Slider.Next => 1 | Slider.Prev => -1 end) mod n)
            /\ List.length (Slider.storiaSliderImages (Slider.step o s))
               = List.length (Slider.storiaSliderImages s)) as [Hi' Hl].
    { destruct o; cbn [Slider.step].
      - rewrite showNextSlide_length, (showNextSlide_index s z Hi Hz). fold n.
        now rewrite next_mod by exact Hz.
      - rewrite showPrevSlide_length, (showPrevSlide_index s z Hi Hz). fold n.
        now rewrite prev_mod by exact Hz. }
    rewrite (IH _ _ Hi'); rewrite Hl; fold n.
    + f_equal. rewrite Z.add_mod_idemp_l by lia. f_equal. destruct o; lia.
    + apply Z.mod_pos_bound. lia.
Qed.

Lemma lightbox_net_repeat (o : Lightbox.op) (k : nat) :
  View.lightbox_net (repeat o k)
  = match o with Lightbox.Next => Z.of_nat k | Lightbox.Prev => - Z.of_nat k end.
Proof.
  induction k as [|k IH]; [now destruct o|].
  cbn [repeat View.lightbox_net fold_right]. fold (View.lightbox_net (repeat o k)).
  rewrite IH. destruct o; lia.
Qed.

Lemma slider_net_repeat (o : Slider.op) (k : nat) :
  View.slider_net (repeat o k)
  = match o with Slider.Next => Z.of_nat k | Slider.Prev => - Z.of_nat k end.
Proof.
  induction k as [|k IH]; [now destruct o|].
  cbn [repeat View.slider_net fold_right]. fold (View.slider_net (repeat o k)).
  rewrite IH. destruct o; lia.
Qed.

End NetSteps.

(** X3.  From an index [z] on one of [N] items, a sequence of next and
    previous ends on [(z + nexts - previous) mod N], in the lightbox
    (without a throw) and in the slider; so as many steps in one direction
    as there are items lead back to where they started. *)
Theorem navigation_ends_on_net_steps
    (ls : Lightbox.state) (ss : Slider.state) (zl zs : Z)
    (los : list Lightbox.op) (sos : list Slider.op)
    (lo : Lightbox.op) (so : Slider.op) :
  Lightbox.currentImageIndex ls = Int zl ->
  0 <= zl < Z.of_nat (List.length (Lightbox.galleryImages ls)) ->
  Slider.currentSlideIndex ss = Int zs ->
  0 <= zs < Z.of_nat (List.length (Slider.storiaSliderImages ss)) ->
  (fst (Lightbox.run los ls) = false
   /\ Lightbox.currentImageIndex (snd (Lightbox.run los ls))
      = Int ((zl + View.lightbox_net los)
             mod Z.of_nat (List.length (Lightbox.galleryImages ls)))
   /\ Lightbox.currentImageIndex
        (snd (Lightbox.run
                (repeat lo (List.length (Lightbox.galleryImages ls))) ls))
      = Int zl)
  /\ (Slider.currentSlideIndex (fold_left (fun s o => Slider.step o s) sos ss)
      = Int ((zs + View.slider_net sos)
             mod Z.of_nat (List.length (Slider.storiaSliderImages ss)))
      /\ Slider.currentSlideIndex
           (fold_left (fun s o => Slider.step o s)
              (repeat so (List.length (Slider.storiaSliderImages ss))) ss)
         = Int zs).
Proof.
  intros Hl Hzl Hs Hzs. split.
  - destruct (lightbox_run_net los ls zl Hl Hzl) as [A B].
    split; [exact A|]. split; [exact B|].
    destruct (lightbox_run_net
                (repeat lo (List.length (Lightbox.galleryImages ls))) ls zl Hl Hzl)
      as [_ C].
    rewrite C, lightbox_net_repeat. f_equal.
    set (n := Z.of_nat (List.length (Lightbox.galleryImages ls))) in *.
    destruct lo.
    + replace (zl + n) with (zl + 1 * n) by lia.
      rewrite Z.mod_add by lia. apply Z.mod_small. lia.
    + replace (zl + - n) with (zl + (-1) * n) by lia.
      rewrite Z.mod_add by lia. apply Z.mod_small. lia.
  - split; [exact (slider_run_net sos ss zs Hs Hzs)|].
    rewrite (slider_run_net _ ss zs Hs Hzs), slider_net_repeat. f_equal.
    set (n := Z.of_nat (List.length (Slider.storiaSliderImages ss))) in *.
    destruct so.
    + replace (zs + n) with (zs + 1 * n) by lia.
      rewrite Z.mod_add by lia. apply Z.mod_small. lia.
    + replace (zs + - n) with (zs + (-1) * n) by lia.
      rewrite Z.mod_add by lia. apply Z.mod_small. lia.
Qed.

Lemma navigation_ends_on_net_steps_witness :
  let img := Lightbox.Image "a.jpg" "a" in
  let ls := Lightbox.State (Int 1) [img; img; img] img "" true "hidden" in
  let el := Element ∅ ∅ in
  let ss := Slider.State (Int 0) [el; el] [el; el] None false 0 [] 0 0 in
  Lightbox.currentImageIndex
    (snd (Lightbox.run [Lightbox.Prev; Lightbox.Prev; Lightbox.Next] ls))
  = Int ((1 + View.lightbox_net [Lightbox.Prev; Lightbox.Prev; Lightbox.Next])
         mod 3).
Proof.
  intros img ls el ss.
  refine (proj1 (proj2 (proj1
    (navigation_ends_on_net_steps ls ss 1 0
       [Lightbox.Prev; Lightbox.Prev; Lightbox.Next] []
       Lightbox.Next Slider.Next eq_refl _ eq_refl _)))); simpl; lia.
Defined.

(** ** The lightbox shows the image it is on *)

Section LightboxShows.

Import Lightbox View.

Lemma updateLightboxImage_sync (s : state) :
  lightbox_ok s ->
  exists s', updateLightboxImage s = (Normal, s')
    /\ lightbox_in_sync s'
    /\ currentImageIndex s' = currentImageIndex s
    /\ galleryImages s' = galleryImages s
    /\ lightbox_active s' = lightbox_active s
    /\ body_overflow s' = body_overflow s.
Proof.
  intros H. apply is_index_spec in H as (z & Hi & Hz).
  unfold updateLightboxImage. rewrite Hi. cbn [get].
  destruct (z <? 0) eqn:E; [apply Z.ltb_lt in E; lia|].
  destruct (galleryImages s !! Z.to_nat z) as [img|] eqn:L.
  - eexists. split; [reflexivity|]. cbn.
    split; [|auto]. exists z, img. cbn. destruct img. repeat split; auto; lia.
  - apply lookup_ge_None in L. lia.
Qed.

Lemma lightbox_step_sync (o : op) (s : state) :
  lightbox_ok s ->
  exists s', step o s = (Normal, s')
    /\ lightbox_ok s' /\ lightbox_in_sync s'
    /\ lightbox_active s' = lightbox_active s
    /\ body_overflow s' = body_overflow s.
Proof.
  intros H. destruct (lightbox_step_ok o s H) as (s' & E & Hok & Hg).
  assert (exists s1, lightbox_ok s1 /\ step o s = updateLightboxImage s1
                     /\ lightbox_active s1 = lightbox_active s
                     /\ body_overflow s1 = body_overflow s) as (s1 & H1 & E1 & A1 & O1).
  { destruct o; cbn [step]; unfold showNextImage, showPrevImage;
      eexists; (split; [|split; [reflexivity | split; reflexivity]]).
    - unfold lightbox_ok. cbn [currentImageIndex galleryImages set_index].
      apply is_index_spec in H as (z & Hi & Hz). rewrite Hi. unfold Js.length.
      rewrite next_index by exact Hz. apply is_index_Int.
      destruct (_ =? _) eqn:?; lia.
    - unfold lightbox_ok. cbn [currentImageIndex galleryImages set_index].
      apply is_index_spec in H as (z & Hi & Hz). rewrite Hi. unfold Js.length.
      rewrite prev_index by exact Hz. apply is_index_Int.
      destruct (_ =? _) eqn:?; lia. }
  destruct (updateLightboxImage_sync s1 H1) as (s2 & E2 & S2 & _ & _ & A2 & O2).
  rewrite E1, E2 in E. injection E as <-.
  exists s2. rewrite E1, E2. repeat split; auto; congruence.
Qed.

Lemma lightbox_run_sync (os : list op) (s : state) :
  lightbox_ok s -> lightbox_in_sync s ->
  fst (run os s) = false
  /\ lightbox_in_sync (snd (run os s))
  /\ lightbox_active (snd (run os s)) = lightbox_active s
  /\ body_overflow (snd (run os s)) = body_overflow s.
Proof.
  revert s. induction os as [|o os IH]; intros s Hok Hs; [simpl; auto|].
  destruct (lightbox_step_sync o s Hok) as (s' & E & Hok' & Hs' & A & O).
  cbn [run]. rewrite E. destruct (IH s' Hok' Hs') as (B & C & D & F).
  destruct (run os s') as [t s'']. simpl in *. repeat split; auto; congruence.
Qed.

Lemma galleryItem_click_ok (k : nat) (s : state) :
  (k < List.length (galleryImages s))%nat ->
  exists s', galleryItem_click k s = (Normal, s')
    /\ currentImageIndex s' = Int (Z.of_nat k)
    /\ galleryImages s' = galleryImages s
    /\ lightbox_active s' = true
    /\ body_overflow s' = "hidden"%string
    /\ lightbox_in_sync s'.
Proof.
  intros Hk. unfold galleryItem_click, openLightbox.
  set (s1 := State _ _ _ _ true _).
  destruct (updateLightboxImage_sync s1) as (s2 & E & S & I & G & A & O).
  { unfold lightbox_ok, s1. cbn. apply is_index_Int. lia. }
  rewrite E. eexists. split; [reflexivity|]. cbn.
  split; [exact I|]. split; [exact G|]. split; [exact A|]. split; [reflexivity|].
  destruct S as (z & img & S1 & S2 & S3 & S4 & S5).
  exists z, img. cbn. auto.
Qed.

End LightboxShows.

(** X4.  A click on an existing gallery item [k] opens the lightbox
    without a throw: index [k], class [active], body overflow [hidden], the
    lightbox image that of item [k] and the counter ["k+1 / N"].  Through
    every sequence of next and previous after it the lightbox remains open
    and shows the image at the index with the matching counter. *)
Theorem lightbox_shows_the_image_at_the_index
    (s : Lightbox.state) (k : nat) (os : list Lightbox.op) :
  (k < List.length (Lightbox.galleryImages s))%nat ->
  let opened := Lightbox.galleryItem_click k s in
  let after := Lightbox.run os (snd opened) in
  fst opened = Normal
  /\ Lightbox.currentImageIndex (snd opened) = Int (Z.of_nat k)
  /\ Lightbox.lightbox_active (snd opened) = true
  /\ Lightbox.body_overflow (snd opened) = "hidden"%string
  /\ View.lightbox_in_sync (snd opened)
  /\ fst after = false
  /\ View.lightbox_in_sync (snd after)
  /\ Lightbox.lightbox_active (snd after) = true
  /\ Lightbox.body_overflow (snd after) = "hidden"%string.
Proof.
  intros Hk opened after.
  destruct (galleryItem_click_ok k s Hk) as (s' & E & I & G & A & O & S).
  unfold after, opened. rewrite E. cbn [fst snd].
  destruct (lightbox_run_sync os s') as (B & C & D & F); [|exact S|].
  { unfold Lightbox.lightbox_ok. rewrite I, G. apply is_index_Int. lia. }
  repeat split; auto; congruence.
Qed.

Lemma lightbox_shows_the_image_at_the_index_witness :
  let a := Lightbox.Image "a.jpg" "a" in
  let b := Lightbox.Image "b.jpg" "b" in
  let s := Lightbox.State (Int 0) [a; b] a "" false "auto" in
  View.lightbox_in_sync
    (snd (Lightbox.run [Lightbox.Next]
            (snd (Lightbox.galleryItem_click 1 s)))).
Proof.
  intros a b s.
  refine (proj1 (proj2 (proj2 (proj2 (proj2 (proj2 (proj2
    (lightbox_shows_the_image_at_the_index s 1 [Lightbox.Next] _)))))))).
  simpl. lia.
Defined.

(** ** Driving the lightbox *)

Section LightboxDriven.

Import Lightbox LightboxEvents.

Lemma closeLightbox_ok (s : state) : lightbox_ok s -> lightbox_ok (closeLightbox s).
Proof. intros H. exact H. Qed.

Lemma handle_ok (e : event) (s : state) :
  lightbox_ok s ->
  exists s', handle e s = (Normal, s') /\ lightbox_ok s'.
Proof.
  intros H.
  assert (forall o, exists s', step o s = (Normal, s') /\ lightbox_ok s') as Hstep.
  { intros o. destruct (lightbox_step_ok o s H) as (s' & E & Hok & _). eauto. }
  destruct e as [key|k| |t| |]; cbn [handle].
  - unfold keydown. destruct (lightbox_active s); [|eauto].
    destruct (String.eqb key "Escape"); [eauto using closeLightbox_ok|].
    destruct (String.eqb key "ArrowRight"); [exact (Hstep Next)|].
    destruct (String.eqb key "ArrowLeft"); [exact (Hstep Prev)|]. eauto.
  - case_bool_decide as Hk; [|eauto].
    destruct (galleryItem_click_ok k s Hk) as (s' & E & I & G & _).
    exists s'. split; [exact E|]. unfold lightbox_ok. rewrite I, G.
    apply is_index_Int. lia.
  - eauto using closeLightbox_ok.
  - unfold lightbox_click. destruct t; eauto using closeLightbox_ok.
  - exact (Hstep Next).
  - exact (Hstep Prev).
Qed.

Lemma handle_closed (e : event) (s : state) :
  is_button e = false ->
  (lightbox_active s = true -> lightbox_ok s) ->
  exists s', handle e s = (Normal, s')
             /\ (lightbox_active s' = true -> lightbox_ok s').
Proof.
  intros Hb H. destruct (lightbox_active s) eqn:A.
  - destruct (handle_ok e s (H eq_refl)) as (s' & E & Hok). eauto.
  - destruct e as [key|k| |t| |]; cbn [handle]; try discriminate.
    + unfold keydown. rewrite A. exists s. split; [reflexivity|]. congruence.
    + case_bool_decide as Hk.
      * destruct (galleryItem_click_ok k s Hk) as (s' & E & I & G & _).
        exists s'. split; [exact E|]. intros _. unfold lightbox_ok.
        rewrite I, G. apply is_index_Int. lia.
      * exists s. split; [reflexivity|]. congruence.
    + eexists. split; [reflexivity|]. discriminate.
    + unfold lightbox_click. destruct t; eexists; (split; [reflexivity|]);
        [discriminate | congruence].
Qed.

Lemma run_ok (es : list event) (s : state) :
  lightbox_ok s -> fst (run es s) = false.
Proof.
  revert s. induction es as [|e es IH]; intros s H; [reflexivity|].
  cbn [run]. destruct (handle_ok e s H) as (s' & E & Hok). rewrite E.
  specialize (IH s' Hok). destruct (run es s'). exact IH.
Qed.

Lemma run_closed (es : list event) (s : state) :
  forallb (fun e => negb (is_button e)) es = true ->
  (lightbox_active s = true -> lightbox_ok s) ->
  fst (run es s) = false.
Proof.
  revert s. induction es as [|e es IH]; intros s Hb H; [reflexivity|].
  cbn [forallb] in Hb. apply andb_true_iff in Hb as [Hb1 Hb2].
  apply negb_true_iff in Hb1.
  cbn [run]. destruct (handle_closed e s Hb1 H) as (s' & E & Hok). rewrite E.
  specialize (IH s' Hb2 Hok). destruct (run es s'). exact IH.
Qed.

Lemma keys_ignored (keys : list string) (s : state) :
  lightbox_active s = false -> run (List.map Key keys) s = (false, s).
Proof.
  intros A. induction keys as [|k keys IH]; [reflexivity|].
  cbn [List.map run handle]. unfold keydown. rewrite A, IH. reflexivity.
Qed.

End LightboxDriven.

(** X5.  No sequence of key presses, clicks on existing gallery items,
    clicks on the close button or the backdrop and clicks on the two arrow
    buttons ever throws when the index is on an image; and without the two
    arrow buttons, started with the lightbox closed, none throws whatever
    the gallery, an empty one included. *)
Theorem lightbox_events_do_not_throw
    (s : Lightbox.state) (es : list LightboxEvents.event) :
  Lightbox.lightbox_ok s
  \/ (Lightbox.lightbox_active s = false
      /\ forallb (fun e => negb (LightboxEvents.is_button e)) es = true) ->
  fst (LightboxEvents.run es s) = false.
Proof.
  intros [H | [A B]].
  - now apply run_ok.
  - apply run_closed; [exact B|]. congruence.
Qed.

Lemma lightbox_events_do_not_throw_witness :
  let img := Lightbox.Image "" "" in
  let s := Lightbox.State (Int 0) [] img "" false "auto" in
  fst (LightboxEvents.run
         [LightboxEvents.Key "ArrowRight"; LightboxEvents.ItemClick 0;
          LightboxEvents.CloseClick; LightboxEvents.Key "Escape"] s) = false.
Proof.
  intros img s.
  apply (lightbox_events_do_not_throw s). right. split; reflexivity.
Defined.

(** X6.  While the lightbox is closed the keyboard does nothing: every
    sequence of keys leaves the whole state as it is.  When it is open,
    Escape closes it and gives the body its overflow back, keeping the
    index, and a key other than Escape and the two arrows changes
    nothing. *)
Theorem keyboard_acts_only_on_open_lightbox :
  (forall (keys : list string) (s : Lightbox.state),
     Lightbox.lightbox_active s = false ->
     LightboxEvents.run (List.map LightboxEvents.Key keys) s = (false, s))
  /\ (forall (keys : list string) (s : Lightbox.state),
        Lightbox.lightbox_active s = true ->
        LightboxEvents.run (List.map LightboxEvents.Key ("Escape"%string :: keys)) s
        = (false, Lightbox.closeLightbox s)
        /\ Lightbox.body_overflow (Lightbox.closeLightbox s) = "auto"%string
        /\ Lightbox.currentImageIndex (Lightbox.closeLightbox s)
           = Lightbox.currentImageIndex s)
  /\ (forall (key : string) (s : Lightbox.state),
        key <> "Escape"%string -> key <> "ArrowRight"%string ->
        key <> "ArrowLeft"%string ->
        LightboxEvents.keydown key s = (Normal, s)).
Proof.
  split; [exact keys_ignored|]. split.
  - intros keys s A. split; [|split; reflexivity].
    assert (LightboxEvents.keydown "Escape" s = (Normal, Lightbox.closeLightbox s))
      as E by (unfold LightboxEvents.keydown; rewrite A; reflexivity).
    cbn [List.map LightboxEvents.run LightboxEvents.handle].
    rewrite E. now rewrite keys_ignored.
  - intros key s H1 H2 H3. unfold LightboxEvents.keydown.
    apply String.eqb_neq in H1, H2, H3. rewrite H1, H2, H3.
    now destruct (Lightbox.lightbox_active s).
Qed.

Lemma keyboard_acts_only_on_open_lightbox_witness :
  let img := Lightbox.Image "a.jpg" "a" in
  let s := Lightbox.State (Int 0) [img] img "1 / 1" true "hidden" in
  LightboxEvents.keydown "Enter" s = (Normal, s).
Proof.
  intros img s.
  apply (proj2 (proj2 keyboard_acts_only_on_open_lightbox)); discriminate.
Defined.

(** ** Loading page *)

Section LoadingOnce.

Import Loading.

Lemma handle_after_hide (e : event) (s : state) :
  hasInteracted s = true ->
  hasInteracted (handle e s) = true
  /\ loadingPage (handle e s) = loadingPage s
  /\ (is_hide e = true -> handle e s = s).
Proof.
  intros H. destruct e; cbn [handle is_hide].
  - unfold hideLoadingPage. rewrite H. auto.
  - cbn. split; [exact H|]. split; [reflexivity | discriminate].
Qed.

Lemma run_after_hide (es : list event) (s : state) :
  hasInteracted s = true ->
  run es s = run (List.filter (fun e => negb (is_hide e)) es) s
  /\ hasInteracted (run es s) = true
  /\ loadingPage (run es s) = loadingPage s.
Proof.
  revert s. induction es as [|e es IH]; intros s H; [auto|].
  destruct (handle_after_hide e s H) as (A & B & C).
  destruct (IH (handle e s) A) as (D & E & F).
  change (run (e :: es) s) with (run es (handle e s)).
  cbn [List.filter]. destruct (is_hide e) eqn:Eh; cbn [negb].
  - rewrite (C eq_refl) in *. auto.
  - change (run (e :: List.filter (fun e => negb (is_hide e)) es) s)
      with (run (List.filter (fun e => negb (is_hide e)) es) (handle e s)).
    rewrite <- D, E, F, B. auto.
Qed.

End LoadingOnce.

(** X7.  [hideLoadingPage] acts once.  The first call hides the loading
    page and sets the body overflow to [auto]; every later call, from
    whichever listener or from the timeout, changes nothing: the page
    stays hidden and the overflow is whatever was written last by other
    code (an opened lightbox keeps its [hidden]). *)
Theorem loading_page_hides_once (es : list Loading.event) (s : Loading.state) :
  Loading.hasInteracted s = false ->
  let first := Loading.hideLoadingPage s in
  first = Loading.State true (classList_add "hidden" (Loading.loadingPage s)) "auto"
  /\ Loading.run (Loading.Hide :: es) s
     = Loading.run (List.filter (fun e => negb (Loading.is_hide e)) es) first
  /\ "hidden"%string ∈ classList (Loading.loadingPage (Loading.run (Loading.Hide :: es) s))
  /\ (forall v, Loading.body_overflow
                  (Loading.run (Loading.Hide :: es ++ [Loading.Overflow v; Loading.Hide]) s)
                = v).
Proof.
  intros H first.
  assert (first = Loading.State true (classList_add "hidden" (Loading.loadingPage s)) "auto")
    as E by (unfold first, Loading.hideLoadingPage; now rewrite H).
  assert (Loading.hasInteracted first = true) as Hf by now rewrite E.
  split; [exact E|].
  change (Loading.run (Loading.Hide :: es) s) with (Loading.run es first).
  destruct (run_after_hide es first Hf) as (A & B & C).
  split; [exact A|]. split.
  - rewrite C, E. cbn. apply elem_of_union_l, elem_of_singleton. reflexivity.
  - intros v.
    change (Loading.run (Loading.Hide :: es ++ [Loading.Overflow v; Loading.Hide]) s)
      with (Loading.run (es ++ [Loading.Overflow v; Loading.Hide]) first).
    unfold Loading.run. rewrite fold_left_app. fold (Loading.run es first).
    cbn [fold_left Loading.handle]. unfold Loading.hideLoadingPage.
    cbn [Loading.hasInteracted]. now rewrite B.
Qed.

Lemma loading_page_hides_once_witness :
  let s := Loading.State false (Element ∅ ∅) "hidden" in
  Loading.body_overflow
    (Loading.run (Loading.Hide :: [Loading.Hide] ++ [Loading.Overflow "hidden"; Loading.Hide]) s)
  = "hidden"%string.
Proof.
  intros s.
  exact (proj2 (proj2 (proj2 (loading_page_hides_once [Loading.Hide] s eq_refl)))
           "hidden"%string).
Defined.

(** ** Mobile menu *)

Section MobileMenu.

Import Nav.

Lemma is_open_toggle (e : element) :
  is_open (toggle "active" e) = negb (is_open e).
Proof.
  unfold toggle, is_open, classList_contains.
  destruct (bool_decide ("active"%string ∈ classList e)) eqn:H; cbn [negb].
  - apply bool_decide_eq_false. apply has_active_remove.
  - apply bool_decide_eq_true. apply has_active_add.
Qed.

Lemma is_open_remove (e : element) :
  is_open (classList_remove "active" e) = false.
Proof. apply bool_decide_eq_false. apply has_active_remove. Qed.

Lemma handle_in_step (e : event) (s : state) : Nav.in_step s -> Nav.in_step (handle e s).
Proof.
  unfold Nav.in_step. intros H. destruct e; cbn.
  - now rewrite !is_open_toggle, H.
  - now rewrite !is_open_remove.
Qed.

Lemma run_in_step (es : list event) (s : state) : Nav.in_step s -> Nav.in_step (run es s).
Proof.
  revert s. induction es as [|e es IH]; intros s H; [exact H|].
  unfold run. simpl. apply IH. now apply handle_in_step.
Qed.

Lemma hamburger_clicks (k : nat) (s : state) :
  is_open (mobileMenu (run (repeat HamburgerClick k) s))
  = xorb (Nat.odd k) (is_open (mobileMenu s))
  /\ is_open (hamburger (run (repeat HamburgerClick k) s))
     = xorb (Nat.odd k) (is_open (hamburger s)).
Proof.
  revert s. induction k as [|k IH]; intros s.
  - split; reflexivity.
  - change (run (repeat HamburgerClick (S k)) s)
      with (run (repeat HamburgerClick k) (hamburger_click s)).
    destruct (IH (hamburger_click s)) as [A B]. rewrite A, B.
    cbn [hamburger_click hamburger mobileMenu].
    rewrite !is_open_toggle, Nat.odd_succ, <- Nat.negb_odd.
    generalize (Nat.odd k) (is_open (mobileMenu s)) (is_open (hamburger s)).
    intros [] [] []; split; reflexivity.
Qed.

End MobileMenu.

(** X8.  The hamburger button and the mobile menu move together: if
    both are open or both closed, they still are after every sequence of
    hamburger and link clicks.  A click on a navigation link closes both
    whatever came before, and [k] clicks on the hamburger leave the menu
    as it was when [k] is even and flip it when [k] is odd. *)
Theorem mobile_menu_follows_hamburger :
  (forall (es : list Nav.event) (s : Nav.state),
     Nav.is_open (Nav.hamburger s) = Nav.is_open (Nav.mobileMenu s) ->
     Nav.is_open (Nav.hamburger (Nav.run es s))
     = Nav.is_open (Nav.mobileMenu (Nav.run es s)))
  /\ (forall (es : list Nav.event) (s : Nav.state),
        Nav.is_open (Nav.hamburger (Nav.run (es ++ [Nav.LinkClick]) s)) = false
        /\ Nav.is_open (Nav.mobileMenu (Nav.run (es ++ [Nav.LinkClick]) s)) = false)
  /\ (forall (k : nat) (s : Nav.state),
        Nav.is_open (Nav.mobileMenu (Nav.run (repeat Nav.HamburgerClick k) s))
        = xorb (Nat.odd k) (Nav.is_open (Nav.mobileMenu s))).
Proof.
  split; [exact run_in_step|]. split.
  - intros es s. unfold Nav.run. rewrite fold_left_app. cbn.
    split; apply is_open_remove.
  - intros k s. apply hamburger_clicks.
Qed.

Lemma mobile_menu_follows_hamburger_witness :
  let s := Nav.State (Element ∅ ∅) (Element ∅ ∅) in
  Nav.is_open (Nav.hamburger (Nav.run [Nav.HamburgerClick; Nav.LinkClick; Nav.HamburgerClick] s))
  = Nav.is_open (Nav.mobileMenu (Nav.run [Nav.HamburgerClick; Nav.LinkClick; Nav.HamburgerClick] s)).
Proof.
  intros s.
  apply (proj1 mobile_menu_follows_hamburger). reflexivity.
Defined.

(** ** Language switcher *)

Section Language.

Import Lang View.

Lemma translate_attributes (lang : option string) (n : node) :
  node_attributes (translate lang n) = node_attributes n
  /\ tagName (translate lang n) = tagName n.
Proof.
  unfold translate. destruct (node_attributes n !! data_attr lang) as [t|]; [|auto].
  destruct (String.eqb t ""); [auto|]. destruct (is_field n); auto.
Qed.

Lemma is_field_translate (lang : option string) (n : node) :
  is_field (translate lang n) = is_field n.
Proof. unfold is_field. now rewrite (proj2 (translate_attributes lang n)). Qed.

(** What [translate] does to one node. *)
Lemma translate_shown (lang : option string) (n : node) :
  (forall text, node_attributes n !! data_attr lang = Some text ->
                text <> ""%string -> shown (translate lang n) = text)
  /\ (~ has_text lang n -> translate lang n = n)
  /\ (is_field n = true -> textContent (translate lang n) = textContent n)
  /\ (is_field n = false -> placeholder (translate lang n) = placeholder n).
Proof.
  split; [|split; [|split]].
  - intros text Ht Hne. unfold shown. rewrite is_field_translate.
    unfold translate. rewrite Ht. apply String.eqb_neq in Hne. rewrite Hne.
    now destruct (is_field n).
  - intros Hno. unfold translate.
    destruct (node_attributes n !! data_attr lang) as [t|] eqn:Ht; [|reflexivity].
    destruct (String.eqb t "") eqn:E; [reflexivity|].
    exfalso. apply Hno. exists t. split; [exact Ht|]. now apply String.eqb_neq.
  - intros Hf. unfold translate.
    destruct (node_attributes n !! data_attr lang) as [t|]; [|reflexivity].
    destruct (String.eqb t ""); [reflexivity|]. now rewrite Hf.
  - intros Hf. unfold translate.
    destruct (node_attributes n !! data_attr lang) as [t|]; [|reflexivity].
    destruct (String.eqb t ""); [reflexivity|]. now rewrite Hf.
Qed.

Lemma button_click_cases (k : nat) (s : state) :
  button_click k s = s
  \/ exists btn, langButtons s !! k = Some btn
       /\ getAttribute "data-lang" btn <> currentLang s
       /\ button_click k s
          = switchLanguage (getAttribute "data-lang" btn)
              (State (getAttribute "data-lang" btn)
                 (imap (fun j b =>
                          if Nat.eqb j k
                          then classList_add "active" (classList_remove "active" b)
                          else classList_remove "active" b)
                       (langButtons s))
                 (getAttribute "data-lang" btn) (translatable s)).
Proof.
  unfold button_click. destruct (langButtons s !! k) as [btn|]; [|auto].
  case_bool_decide as H; [|auto]. right. exists btn. auto.
Qed.

Lemma switched_reads_current (lang : option string) (s : state) :
  currentLang s = lang -> Lang.reads_current (switchLanguage lang s).
Proof.
  intros Hl n text Hin Ht Hne. cbn in Hin, Ht. rewrite Hl in Ht.
  apply in_map_iff in Hin as (n0 & <- & _).
  rewrite (proj1 (translate_attributes lang n0)) in Ht.
  now apply (proj1 (translate_shown lang n0)).
Qed.

Lemma button_click_reads_current (k : nat) (s : state) :
  Lang.reads_current s -> Lang.reads_current (button_click k s).
Proof.
  intros H. destruct (button_click_cases k s) as [-> | (btn & _ & _ & ->)];
    [exact H|]. now apply switched_reads_current.
Qed.

Lemma run_reads_current (clicks : list nat) (s : state) :
  Lang.reads_current s -> Lang.reads_current (run clicks s).
Proof.
  revert s. induction clicks as [|k clicks IH]; intros s H; [exact H|].
  unfold run. simpl. apply IH. now apply button_click_reads_current.
Qed.

Lemma buttons_only_current (k : nat) (buttons : list element) :
  only_current (Int (Z.of_nat k))
    (imap (fun j b =>
             if Nat.eqb j k
             then classList_add "active" (classList_remove "active" b)
             else classList_remove "active" b) buttons).
Proof.
  intros j el H. rewrite list_lookup_imap in H.
  destruct (buttons !! j) as [b|]; [|discriminate]. injection H as <-.
  destruct (Nat.eqb j k) eqn:E.
  - apply Nat.eqb_eq in E as ->. split; [reflexivity | intros _; apply has_active_add].
  - apply Nat.eqb_neq in E. split.
    + intros F. now apply has_active_remove in F.
    + intros [= F]. lia.
Qed.

End Language.

(** X9.  A click on the button of the language already selected changes
    nothing at all.  A click on a button of another language makes that
    language current, assigns it to the [lang] of the document, leaves
    exactly the clicked button [active] and translates the page to it. *)
Theorem language_button_click (s : Lang.state) (k : nat) (btn : element) :
  Lang.langButtons s !! k = Some btn ->
  let lang := getAttribute "data-lang" btn in
  let s' := Lang.button_click k s in
  (lang = Lang.currentLang s -> s' = s)
  /\ (lang <> Lang.currentLang s ->
      Lang.currentLang s' = lang
      /\ Lang.document_lang s' = lang
      /\ View.only_current (Int (Z.of_nat k)) (Lang.langButtons s')
      /\ List.length (Lang.langButtons s') = List.length (Lang.langButtons s)
      /\ Lang.translatable s'
         = List.map (Lang.translate lang) (Lang.translatable s)).
Proof.
  intros Hb lang s'. unfold s', Lang.button_click. rewrite Hb. fold lang. split.
  - intros E. rewrite bool_decide_eq_false_2; [reflexivity | auto].
  - intros E. rewrite bool_decide_eq_true_2 by exact E. cbn.
    split; [reflexivity|]. split; [reflexivity|].
    split; [apply buttons_only_current|]. split; [apply length_imap | reflexivity].
Qed.

Lemma language_button_click_witness :
  let it := Element {[ "data-lang"%string := "it"%string ]} {[ "active"%string ]} in
  let en := Element {[ "data-lang"%string := "en"%string ]} ∅ in
  let s := Lang.State (Some "it"%string) [it; en] (Some "it"%string) [] in
  Lang.currentLang (Lang.button_click 1 s) = Some "en"%string.
Proof.
  intros it en s.
  refine (proj1 (proj2 (language_button_click s 1 en eq_refl) _)).
  discriminate.
Defined.

(** X10.  After a switch every translatable element that carries a
    non-empty text for the selected language shows it: in its placeholder
    when it is an INPUT or TEXTAREA (its text content untouched), in its
    text content otherwise (its placeholder untouched).  An element with
    no text, or an empty one, for the language is left as it is.  Once
    every element reads in the current language, it does after every
    sequence of clicks on language buttons. *)
Theorem page_reads_in_current_language :
  (forall (lang : option string) (n : Lang.node),
     (forall text, Lang.node_attributes n !! Lang.data_attr lang = Some text ->
                   text <> ""%string ->
                   Lang.shown (Lang.translate lang n) = text)
     /\ (~ Lang.has_text lang n -> Lang.translate lang n = n)
     /\ (Lang.is_field n = true ->
         Lang.textContent (Lang.translate lang n) = Lang.textContent n)
     /\ (Lang.is_field n = false ->
         Lang.placeholder (Lang.translate lang n) = Lang.placeholder n))
  /\ (forall (s : Lang.state) (k : nat),
        Lang.button_click k s <> s -> Lang.reads_current (Lang.button_click k s))
  /\ (forall (clicks : list nat) (s : Lang.state),
        Lang.reads_current s -> Lang.reads_current (Lang.run clicks s)).
Proof.
  split; [exact translate_shown|]. split; [|exact run_reads_current].
  intros s k Hne.
  destruct (button_click_cases k s) as [E | (btn & _ & _ & ->)]; [congruence|].
  now apply switched_reads_current.
Qed.

Lemma page_reads_in_current_language_witness :
  let it := Element {[ "data-lang"%string := "it"%string ]} {[ "active"%string ]} in
  let en := Element {[ "data-lang"%string := "en"%string ]} ∅ in
  let title :=
    Lang.Node "H1" (<[ "data-en"%string := "Welcome"%string ]>
                      {[ "data-it"%string := "Benvenuti"%string ]})
              "" "Benvenuti" in
  let s := Lang.State (Some "it"%string) [it; en] (Some "it"%string) [title] in
  Lang.reads_current (Lang.run [1%nat; 0%nat; 1%nat] s).
Proof.
  intros it en title s.
  apply (proj2 (proj2 page_reads_in_current_language)).
  intros n text [<- | []] Ht Hne. cbn in Ht.
  rewrite lookup_insert_ne in Ht by discriminate.
  rewrite lookup_singleton_eq in Ht. now injection Ht as <-.
Defined.

(** ** The scroll window of the reviews banner *)

Section BannerWindow.

Import Banner.

Local Open Scope Q_scope.

Lemma pastDoveSiamo_iff (m : measures) :
  pastDoveSiamo m = true <-> BannerAt.window_start m <= scrollY m.
Proof. unfold pastDoveSiamo. apply Qle_bool_iff. Qed.

Lemma beforeContactMiddle_iff (m : measures) :
  beforeContactMiddle m = true <-> scrollY m < contactMiddle m.
Proof.
  unfold beforeContactMiddle. rewrite negb_true_iff.
  rewrite <- not_true_iff_false, Qle_bool_iff. split.
  - apply Qnot_le_lt.
  - apply Qlt_not_le.
Qed.

Lemma check_visible (m : measures) (b : banner) :
  "visible"%string ∈ classes (checkBannerVisibility m b)
  <-> BannerAt.window_start m <= scrollY m /\ scrollY m < contactMiddle m.
Proof.
  rewrite <- pastDoveSiamo_iff, <- beforeContactMiddle_iff, <- andb_true_iff.
  unfold checkBannerVisibility. destruct (_ && _); cbn.
  - split; [reflexivity | intros _; apply elem_of_union_l, elem_of_singleton; reflexivity].
  - split; [|discriminate]. intros [_ H]%elem_of_difference.
    contradict H. now apply elem_of_singleton.
Qed.

Lemma check_other_classes (m : measures) (b : banner) (c : string) :
  c <> "visible"%string ->
  (c ∈ classes (checkBannerVisibility m b) <-> c ∈ classes b).
Proof.
  intros Hc. unfold checkBannerVisibility. destruct (_ && _); cbn.
  - rewrite elem_of_union, elem_of_singleton. tauto.
  - rewrite elem_of_difference, elem_of_singleton. tauto.
Qed.

Lemma check_twice (m m' : measures) (b : banner) :
  checkBannerVisibility m (checkBannerVisibility m' b) = checkBannerVisibility m b.
Proof.
  unfold checkBannerVisibility.
  destruct (pastDoveSiamo m && beforeContactMiddle m),
           (pastDoveSiamo m' && beforeContactMiddle m'); cbn; f_equal;
    apply set_eq; intros c; set_unfold;
    destruct (decide (c = "visible"%string)); tauto.
Qed.

End BannerWindow.

(** X11.  With the layout fixed, the scroll offsets at which
    [checkBannerVisibility] shows the banner form one interval: shown at
    two offsets, it is shown at every offset between them; and when the
    middle of the contact section is not below
    [start.top - viewportHeight/2] it is shown at no offset. *)
Theorem banner_window_is_an_interval
    (m : Banner.measures) (b : Banner.banner) (y1 y y2 : Q) :
  (y1 <= y)%Q -> (y <= y2)%Q ->
  ("visible"%string ∈ Banner.classes (Banner.checkBannerVisibility (BannerAt.at_scroll m y1) b) ->
   "visible"%string ∈ Banner.classes (Banner.checkBannerVisibility (BannerAt.at_scroll m y2) b) ->
   "visible"%string ∈ Banner.classes (Banner.checkBannerVisibility (BannerAt.at_scroll m y) b))
  /\ ((Banner.contactMiddle m <= BannerAt.window_start m)%Q ->
      "visible"%string ∉ Banner.classes (Banner.checkBannerVisibility (BannerAt.at_scroll m y) b)).
Proof.
  intros H1 H2. split.
  - rewrite !check_visible. cbn. intros [A _] [_ B]. split.
    + exact (Qle_trans _ _ _ A H1).
    + exact (Qle_lt_trans _ _ _ H2 B).
  - intros He. rewrite check_visible. cbn. intros [A B].
    apply (Qlt_irrefl y). apply (Qlt_le_trans _ _ _ B).
    exact (Qle_trans _ _ _ He A).
Qed.

Lemma banner_window_is_an_interval_witness :
  let m := Banner.Measures 0 800 1000 3000 600 in
  let b := Banner.Banner_ ∅ "" in
  "visible"%string ∈ Banner.classes (Banner.checkBannerVisibility (BannerAt.at_scroll m 2000) b).
Proof.
  intros m b.
  refine (proj1 (banner_window_is_an_interval m b 700 2000 3200 _ _) _ _);
    try (apply check_visible; split); unfold Qle, Qlt; simpl; lia.
Defined.

(** X12.  What [checkBannerVisibility] leaves behind does not depend on
    earlier scrolling: a run after another run gives the very banner the
    last run alone gives.  It touches nothing but the class [visible]:
    every other class and the inline [display] are as before. *)
Theorem banner_last_scroll_decides :
  forall (m m' : Banner.measures) (b : Banner.banner),
    Banner.checkBannerVisibility m (Banner.checkBannerVisibility m' b)
    = Banner.checkBannerVisibility m b
    /\ (forall c : string, c <> "visible"%string ->
          (c ∈ Banner.classes (Banner.checkBannerVisibility m b)
           <-> c ∈ Banner.classes b))
    /\ Banner.style_display (Banner.checkBannerVisibility m b)
       = Banner.style_display b.
Proof.
  intros m m' b. split; [apply check_twice|].
  split; [intros c; apply check_other_classes | apply check_keeps_display].
Qed.

(** ** Reviews rotation *)

Section ReviewsRotation.

Import Reviews View.

Lemma finished_classes (e : element) :
  ("active"%string ∉ classList (classList_remove "exiting" (classList_remove "active" e)))
  /\ ("exiting"%string ∉ classList (classList_remove "exiting" (classList_remove "active" e))).
Proof.
  cbn. rewrite !elem_of_difference, !elem_of_singleton. split; intros H.
  - destruct H as [[_ H] _]. now apply H.
  - destruct H as [_ H]. now apply H.
Qed.

Lemma added_active_exiting (e : element) :
  "exiting"%string ∈ classList (classList_add "active" e)
  <-> "exiting"%string ∈ classList e.
Proof.
  cbn. rewrite elem_of_union, elem_of_singleton. split; [|auto].
  intros [H|H]; [discriminate | exact H].
Qed.

Lemma rotate_full (s : state) (z : Z) :
  currentReviewIndex s = Int z ->
  0 <= z < Z.of_nat (List.length (reviewItems s)) ->
  only_current (Int z) (reviewItems s) ->
  View.none_exiting (reviewItems s) ->
  exists s', rotate s = (Normal, s')
    /\ currentReviewIndex s'
       = Int ((z + 1) mod Z.of_nat (List.length (reviewItems s)))
    /\ List.length (reviewItems s') = List.length (reviewItems s)
    /\ only_current (currentReviewIndex s') (reviewItems s')
    /\ View.none_exiting (reviewItems s').
Proof.
  intros Hi Hz Hcur Hex.
  set (N := List.length (reviewItems s)) in *.
  set (kz := Z.to_nat z).
  assert (kz < N)%nat as Hkz by (unfold kz; lia).
  destruct (lookup_lt_is_Some_2 (reviewItems s) kz Hkz) as [el0 Hel0].
  unfold rotate, rotate_start. rewrite Hi.
  destruct (z <? 0) eqn:E; [apply Z.ltb_lt in E; lia|]. fold kz. rewrite Hel0.
  unfold rotate_finish. cbn [reviewItems currentReviewIndex].
  set (items1 := alter (fun e => classList_remove "exiting" (classList_remove "active" e))
                       kz (alter (classList_add "exiting") kz (reviewItems s))).
  assert (List.length items1 = N) as L1 by (unfold items1; now rewrite !length_alter).
  unfold Js.length. rewrite L1, next_index by exact Hz.
  rewrite next_mod by exact Hz.
  set (z' := (z + 1) mod Z.of_nat N).
  assert (0 <= z' < Z.of_nat N) as Hz' by (apply Z.mod_pos_bound; lia).
  set (kz' := Z.to_nat z').
  assert (kz' < N)%nat as Hkz' by (unfold kz'; lia).
  cbn [get]. destruct (z' <? 0) eqn:E'; [apply Z.ltb_lt in E'; lia|]. fold kz'.
  destruct (lookup_lt_is_Some_2 items1 kz') as [e1 He1]; [lia|]. rewrite He1.
  eexists. split; [reflexivity|]. cbn [reviewItems currentReviewIndex].
  split; [reflexivity|]. split; [now rewrite length_alter|].
  assert (forall j el, items1 !! j = Some el ->
            ("exiting"%string ∉ classList el)
            /\ ("active"%string ∈ classList el -> j <> kz /\ Int z = Int (Z.of_nat j)))
    as H1.
  { intros j el H. unfold items1 in H. destruct (decide (kz = j)) as [<-|Hne].
    - rewrite list_lookup_alter_eq, list_lookup_alter_eq, Hel0 in H.
      injection H as <-. destruct (finished_classes (classList_add "exiting" el0)) as [A B].
      split; [exact B | intros F; now apply A in F].
    - rewrite !list_lookup_alter_ne in H by exact Hne.
      split; [exact (Hex j el H)|]. intros F. split; [auto|]. now apply (Hcur j el H). }
  split.
  - intros j el H. destruct (decide (kz' = j)) as [<-|Hne].
    + rewrite list_lookup_alter_eq, He1 in H. injection H as <-.
      split; [intros _; f_equal; unfold kz'; lia | intros _; apply has_active_add].
    + rewrite list_lookup_alter_ne in H by exact Hne.
      destruct (H1 j el H) as [_ A]. split.
      * intros F. destruct (A F) as [Hj E1]. injection E1 as E1.
        exfalso. apply Hj. unfold kz. lia.
      * intros [= F]. exfalso. apply Hne. unfold kz'. lia.
  - intros j el H. destruct (decide (kz' = j)) as [<-|Hne].
    + rewrite list_lookup_alter_eq, He1 in H. injection H as <-.
      rewrite added_active_exiting. exact (proj1 (H1 kz' e1 He1)).
    + rewrite list_lookup_alter_ne in H by exact Hne. exact (proj1 (H1 j el H)).
Qed.

End ReviewsRotation.

(** X13.  One rotation of the reviews (the interval function with its
    delayed second half), started with exactly the review at the index
    [active] and none [exiting], does not throw and moves on by one,
    wrapping at the end: the index is [(z + 1) mod N], exactly the review
    at the new index is [active], and none is [exiting]. *)
Theorem reviews_rotation_moves_on (s : Reviews.state) (z : Z) :
  Reviews.currentReviewIndex s = Int z ->
  0 <= z < Z.of_nat (List.length (Reviews.reviewItems s)) ->
  View.only_current (Int z) (Reviews.reviewItems s) ->
  View.none_exiting (Reviews.reviewItems s) ->
  let r := Reviews.rotate s in
  fst r = Normal
  /\ Reviews.currentReviewIndex (snd r)
     = Int ((z + 1) mod Z.of_nat (List.length (Reviews.reviewItems s)))
  /\ List.length (Reviews.reviewItems (snd r))
     = List.length (Reviews.reviewItems s)
  /\ View.only_current (Reviews.currentReviewIndex (snd r))
       (Reviews.reviewItems (snd r))
  /\ View.none_exiting (Reviews.reviewItems (snd r)).
Proof.
  intros Hi Hz Hc He r.
  destruct (rotate_full s z Hi Hz Hc He) as (s' & E & A). unfold r. rewrite E.
  split; [reflexivity | exact A].
Qed.

Lemma reviews_rotation_moves_on_witness :
  let on := Element ∅ {[ "active"%string ]} in
  let off := Element ∅ ∅ in
  let s := Reviews.State [off; on] (Int 1) in
  fst (Reviews.rotate s) = Normal
  /\ Reviews.currentReviewIndex (snd (Reviews.rotate s)) = Int ((1 + 1) mod 2).
Proof.
  intros on off s.
  assert (View.only_current (Int 1) (Reviews.reviewItems s)) as Hc.
  { intros [|[|j]] el H; cbn in H; try discriminate; injection H as <-; cbn.
    - split; [intros F; now apply elem_of_empty in F | discriminate].
    - split; [reflexivity | intros _; now apply elem_of_singleton]. }
  assert (View.none_exiting (Reviews.reviewItems s)) as He.
  { intros [|[|j]] el H; cbn in H; try discriminate; injection H as <-; cbn.
    - apply not_elem_of_empty.
    - intros F%elem_of_singleton. discriminate. }
  pose proof (reviews_rotation_moves_on s 1 eq_refl ltac:(simpl; lia) Hc He) as H.
  exact (conj (proj1 H) (proj1 (proj2 H))).
Defined.

(** X14.  Without review items the interval function throws a TypeError
    at every firing, whatever the index, and changes nothing: the rotation
    is started without a check that there is a review to rotate. *)
Theorem reviews_rotation_without_items_throws :
  forall i : number,
    Reviews.rotate (Reviews.State [] i) = (Throw "TypeError", Reviews.State [] i).
Proof.
  intros [|z]; [reflexivity|]. unfold Reviews.rotate, Reviews.rotate_start. cbn.
  now destruct (z <? 0).
Qed.

(** ** The form, whatever is in it *)

Section FormAnyValues.

Import Form.

Lemma in_all_fields (f : field) : In f all_fields.
Proof. destruct f; simpl; tauto. Qed.

Lemma validateField_other (v : ustring) (ty : string) (e : bool) :
  ty <> "email"%string -> ty <> "number"%string ->
  validateField (Input v ty true) e = is_empty (trim v).
Proof.
  intros H1 H2. unfold validateField. cbn [required type input_value].
  rewrite (bool_decide_eq_false_2 _ H1), (bool_decide_eq_false_2 _ H2).
  now destruct (is_empty (trim v)).
Qed.

Lemma validateField_email (v : ustring) (e : bool) :
  validateField (Input v "email" true) e = fails email v.
Proof.
  unfold validateField. cbn -[test trim is_empty emailRegex].
  destruct (is_empty (trim v)) eqn:E.
  - destruct (trim v); [reflexivity | discriminate].
  - now destruct (test emailRegex (trim v)).
Qed.

End FormAnyValues.

(** X15.  For every form the submit handler marks exactly the groups of
    the fields whose test fires, whatever was marked before; it finds the
    form valid exactly when no test fires, shows the popup exactly then,
    and prevents the default submission in both cases. *)
Theorem submit_marks_exactly_the_failing_fields :
  forall fm : Form.form,
    (forall f, Form.groups (Form.submit fm) f = Form.fails f (Form.value fm f))
    /\ (Form.isValid (Form.submit fm) = true
        <-> forall f, Form.fails f (Form.value fm f) = false)
    /\ Form.popupShown (Form.submit fm) = Form.isValid (Form.submit fm)
    /\ Form.defaultPrevented (Form.submit fm) = true
    /\ (forall marks, Form.submit (Form.Form_ (Form.value fm) marks)
                      = Form.submit fm).
Proof.
  intros fm. destruct (submit_groups fm) as (G & V & D & P).
  split; [exact G|]. split; [|split; [exact P|split; [exact D|reflexivity]]].
  rewrite V, forallb_forall. split.
  - intros H f. specialize (H f (in_all_fields f)). now apply negb_true_iff.
  - intros H f _. now rewrite H.
Qed.

(** X16.  [validateField] leaves a field that is not required alone.  For
    a required field of a type other than email and number it marks the
    group exactly when the trimmed value is empty, which is the test of the
    submit handler for name, phone and message; for an e-mail field it
    agrees with the submit handler on every value; for the date it agrees
    except on a non-empty value of whitespace only, which only
    [validateField] rejects. *)
Theorem blur_and_submit_checks_agree (v : ustring) (ty : string) (e : bool) :
  Form.validateField (Form.Input v ty false) e = e
  /\ (ty <> "email"%string -> ty <> "number"%string ->
      Form.validateField (Form.Input v ty true) e = Form.fails Form.name v
      /\ Form.validateField (Form.Input v ty true) e = Form.fails Form.phone v
      /\ Form.validateField (Form.Input v ty true) e = Form.fails Form.message v
      /\ Form.validateField (Form.Input v ty true) e
         = (Form.fails Form.eventDate v
            || (negb (is_empty v) && is_empty (trim v))))
  /\ Form.validateField (Form.Input v "email" true) e = Form.fails Form.email v.
Proof.
  split; [reflexivity|]. split; [|apply validateField_email].
  intros H1 H2. rewrite (validateField_other v ty e H1 H2). cbn [Form.fails].
  repeat split. destruct v; reflexivity.
Qed.

Lemma blur_and_submit_checks_agree_witness :
  Form.validateField (Form.Input (lit " ") "date" true) false
  = (Form.fails Form.eventDate (lit " ")
     || (negb (is_empty (lit " ")) && is_empty (trim (lit " ")))).
Proof.
  refine (proj2 (proj2 (proj2 (proj1 (proj2
    (blur_and_submit_checks_agree (lit " ") "date" false)) _ _)))); discriminate.
Defined.

(** ** Whitespace around a value *)

Section Padding.

Lemma trimStart_spaces (pre s : ustring) :
  forallb is_space pre = true -> trimStart (pre ++ s) = trimStart s.
Proof.
  induction pre as [|c pre IH]; intros H; [reflexivity|].
  cbn [forallb] in H. apply andb_true_iff in H as [Hc Hp].
  cbn [app trimStart]. rewrite Hc. auto.
Qed.

Lemma trimStart_nil (s : ustring) :
  trimStart s = [] <-> forallb is_space s = true.
Proof.
  induction s as [|c s IH]; [simpl; tauto|].
  cbn [trimStart forallb]. destruct (is_space c); cbn [andb]; [exact IH|].
  split; discriminate.
Qed.

Lemma trimStart_app (s post : ustring) :
  trimStart s <> [] -> trimStart (s ++ post) = trimStart s ++ post.
Proof.
  induction s as [|c s IH]; intros H; [exfalso; now apply H|].
  cbn [app trimStart] in *. destruct (is_space c); auto.
Qed.

Lemma forallb_rev {A} (p : A -> bool) (l : list A) :
  forallb p (rev l) = forallb p l.
Proof.
  apply eq_true_iff_eq. rewrite !forallb_forall. split; intros H x Hx;
    apply H; [apply in_rev | apply in_rev in Hx]; auto.
  now rewrite rev_involutive.
Qed.

Lemma trimEnd_spaces (s post : ustring) :
  forallb is_space post = true -> trimEnd (s ++ post) = trimEnd s.
Proof.
  intros H. unfold trimEnd. rewrite rev_app_distr, trimStart_spaces; [reflexivity|].
  now rewrite forallb_rev.
Qed.

Lemma trim_padded (pre v post : ustring) :
  forallb is_space pre = true -> forallb is_space post = true ->
  trim (pre ++ v ++ post) = trim v.
Proof.
  intros Hpre Hpost. unfold trim. rewrite trimStart_spaces by exact Hpre.
  destruct (trimStart v) as [|c t] eqn:E.
  - apply trimStart_nil in E.
    assert (trimStart (v ++ post) = []) as ->; [|reflexivity].
    apply trimStart_nil. rewrite forallb_app, E, Hpost. reflexivity.
  - rewrite trimStart_app by (rewrite E; discriminate).
    rewrite E. now apply trimEnd_spaces.
Qed.

Lemma ToNumber_trim (v w : ustring) : trim v = trim w -> ToNumber v = ToNumber w.
Proof. intros H. unfold ToNumber. now rewrite H. Qed.

End Padding.

(** X17.  Whitespace before and after a value never changes a verdict of
    the submit handler except for the date: with [pre] and [post] made of
    whitespace only, the trimmed value, the numeric value and the tests of
    name, e-mail, phone, guests and message are those of the bare value.
    The date test alone sees it: padding makes an empty date pass. *)
Theorem padding_does_not_change_the_verdict
    (pre v post : ustring) (f : Form.field) :
  forallb is_space pre = true -> forallb is_space post = true ->
  trim (pre ++ v ++ post) = trim v
  /\ ToNumber (pre ++ v ++ post) = ToNumber v
  /\ (f <> Form.eventDate ->
      Form.fails f (pre ++ v ++ post) = Form.fails f v)
  /\ Form.fails Form.eventDate [] = true
  /\ Form.fails Form.eventDate (lit " ") = false.
Proof.
  intros Hpre Hpost.
  pose proof (trim_padded pre v post Hpre Hpost) as T.
  pose proof (ToNumber_trim _ _ T) as N.
  split; [exact T|]. split; [exact N|]. split; [|split; reflexivity].
  intros Hf. destruct f; cbn [Form.fails]; rewrite ?T, ?N; try reflexivity;
    [congruence|].
  destruct v as [|c v].
  - cbn [is_empty orb]. destruct (is_empty (pre ++ [] ++ post)); [reflexivity|].
    cbn [orb]. rewrite (ToNumber_blank []); reflexivity.
  - assert (is_empty (pre ++ (c :: v) ++ post) = false) as ->; [|reflexivity].
    destruct pre; reflexivity.
Qed.

Lemma padding_does_not_change_the_verdict_witness :
  Form.fails Form.email (lit "  " ++ lit "a@b.co" ++ lit " ")
  = Form.fails Form.email (lit "a@b.co").
Proof.
  refine (proj1 (proj2 (proj2
    (padding_does_not_change_the_verdict (lit "  ") (lit "a@b.co") (lit " ")
       Form.email eq_refl eq_refl))) _).
  discriminate.
Defined.

(** ** Debouncing *)

Section Debounced.

Import Debounce.

Context {A : Type}.

Implicit Types (s : state A) (a : A).

Lemma call_arms (wait : Z) a s :
  pending s = [] \/ (exists d a0, Debounce.armed s d a0) ->
  Debounce.armed (executedFunction wait a s) (now s + wait) a
  /\ calls (executedFunction wait a s) = calls s
  /\ now (executedFunction wait a s) = now s.
Proof.
  intros H. unfold executedFunction, Debounce.armed. cbn.
  assert (clearTimeout (timeout s) (pending s) = []) as ->.
  { destruct H as [-> | (d & a0 & id & -> & ->)].
    - now destruct (timeout s).
    - cbn. now rewrite Nat.eqb_refl. }
  eauto.
Qed.

Lemma tick_armed (d : Z) a s :
  Debounce.armed s d a ->
  now (tick s) = now s + 1
  /\ if d =? now s + 1
     then pending (tick s) = [] /\ calls (tick s) = calls s ++ [(d, a)]
     else Debounce.armed (tick s) d a /\ calls (tick s) = calls s.
Proof.
  intros (id & Hp & Ht). unfold tick. rewrite Hp. cbn [List.filter due].
  destruct (d =? now s + 1) eqn:E; cbn [fold_left].
  - cbn [pending existsb tid]. rewrite Nat.eqb_refl. cbn [orb].
    unfold fire. cbn. rewrite Nat.eqb_refl. cbn. rewrite Ht. cbn.
    apply Z.eqb_eq in E. rewrite E. auto.
  - cbn. split; [reflexivity|]. split; [|reflexivity]. exists id. auto.
Qed.

Lemma tick_idle s :
  pending s = [] ->
  pending (tick s) = [] /\ calls (tick s) = calls s /\ now (tick s) = now s + 1.
Proof. intros H. unfold tick. rewrite H. cbn. auto. Qed.

Lemma elapse_idle (n : nat) s :
  pending s = [] ->
  pending (elapse n s) = [] /\ calls (elapse n s) = calls s
  /\ now (elapse n s) = now s + Z.of_nat n.
Proof.
  intros H. induction n as [|n (A1 & A2 & A3)].
  - cbn. split; [exact H|]. split; [reflexivity | lia].
  - change (elapse (S n) s) with (tick (elapse n s)).
    destruct (tick_idle _ A1) as (B1 & B2 & B3).
    rewrite B2, B3, A2, A3. split; [exact B1|]. split; [reflexivity | lia].
Qed.

Lemma elapse_armed (n : nat) (d : Z) a s :
  Debounce.armed s d a -> now s < d ->
  now (elapse n s) = now s + Z.of_nat n
  /\ if now s + Z.of_nat n <? d
     then Debounce.armed (elapse n s) d a /\ calls (elapse n s) = calls s
     else pending (elapse n s) = [] /\ calls (elapse n s) = calls s ++ [(d, a)].
Proof.
  intros Ha Hd. induction n as [|n (IH1 & IH2)].
  - change (elapse 0 s) with s. split; [lia|].
    destruct (_ <? _) eqn:E; [auto | apply Z.ltb_ge in E; lia].
  - change (elapse (S n) s) with (tick (elapse n s)).
    destruct (now s + Z.of_nat n <? d) eqn:E.
    + apply Z.ltb_lt in E. destruct IH2 as [Har Hc].
      destruct (tick_armed d a _ Har) as [T1 T2]. rewrite IH1 in T1, T2.
      split; [rewrite T1; lia|].
      destruct (d =? now s + Z.of_nat n + 1) eqn:E1.
      * apply Z.eqb_eq in E1. destruct T2 as [P C].
        destruct (_ <? _) eqn:E2; [apply Z.ltb_lt in E2; lia|].
        split; [exact P | now rewrite C, Hc].
      * apply Z.eqb_neq in E1. destruct T2 as [P C].
        destruct (_ <? _) eqn:E2; [|apply Z.ltb_ge in E2; lia].
        split; [exact P | now rewrite C, Hc].
    + apply Z.ltb_ge in E. destruct IH2 as [P C].
      destruct (tick_idle _ P) as (B1 & B2 & B3).
      split; [rewrite B3, IH1; lia|].
      destruct (_ <? _) eqn:E2; [apply Z.ltb_lt in E2; lia|].
      split; [exact B1 | now rewrite B2, C].
Qed.

(** During a burst whose pauses are all shorter than [wait], [func] is
    not called, and at its end nothing or one timer is pending. *)
Lemma burst_quiet (wait : nat) (cs : list (nat * A)) s :
  Forall (fun c => (fst c < wait)%nat) cs ->
  pending s = [] \/ (exists a, Debounce.armed s (now s + Z.of_nat wait) a) ->
  calls (burst (Z.of_nat wait) cs s) = calls s
  /\ (pending (burst (Z.of_nat wait) cs s) = []
      \/ exists a, Debounce.armed (burst (Z.of_nat wait) cs s)
                         (now (burst (Z.of_nat wait) cs s) + Z.of_nat wait) a).
Proof.
  intros Hcs. revert s. induction Hcs as [|[g a] cs Hg _ IH]; intros s H; [auto|].
  cbn [fst] in Hg.
  change (burst (Z.of_nat wait) ((g, a) :: cs) s)
    with (burst (Z.of_nat wait) cs
            (executedFunction (Z.of_nat wait) a (elapse g s))).
  assert (calls (elapse g s) = calls s
          /\ (pending (elapse g s) = [] \/ exists d a0, Debounce.armed (elapse g s) d a0))
    as [Hc Hp].
  { destruct H as [H | (a0 & H)].
    - destruct (elapse_idle g s H) as (P & C & _). auto.
    - destruct (elapse_armed g _ a0 s H ltac:(lia)) as [_ E].
      destruct (_ <? _) eqn:E1; [|apply Z.ltb_ge in E1; lia].
      destruct E as [Har C]. eauto. }
  destruct (call_arms (Z.of_nat wait) a _ Hp) as (Har & C & Nw).
  destruct (IH (executedFunction (Z.of_nat wait) a (elapse g s))) as [C' P'].
  { right. exists a. now rewrite Nw. }
  split; [now rewrite C', C, Hc | exact P'].
Qed.

End Debounced.

(** X18.  A debounced function, called again and again with pauses
    shorter than [wait], does not call [func] while the calls go on; after
    the last call [func] is still not called for [wait - 1] ms, and is
    called exactly once, [wait] ms after the last call and with the
    arguments of the last call, however long one waits after that. *)
Theorem debounce_calls_once_after_the_burst
    {A : Type} (wait : nat) (cs : list (nat * A)) (g : nat) (a : A)
    (s : Debounce.state A) (n : nat) :
  (0 < wait)%nat ->
  Debounce.pending s = [] ->
  Forall (fun c => (fst c < wait)%nat) (cs ++ [(g, a)]) ->
  let s1 := Debounce.burst (Z.of_nat wait) (cs ++ [(g, a)]) s in
  Debounce.calls s1 = Debounce.calls s
  /\ ((n < wait)%nat -> Debounce.calls (Debounce.elapse n s1) = Debounce.calls s)
  /\ ((wait <= n)%nat ->
      Debounce.calls (Debounce.elapse n s1)
      = Debounce.calls s ++ [(Debounce.now s1 + Z.of_nat wait, a)]).
Proof.
  intros Hw Hs Hcs s1.
  apply Forall_app in Hcs as [Hcs Hg]. apply Forall_cons in Hg as [Hg _].
  cbn [fst] in Hg.
  destruct (burst_quiet wait cs s Hcs (or_introl Hs)) as [C P].
  set (s0 := Debounce.burst (Z.of_nat wait) cs s) in *.
  assert (s1 = Debounce.executedFunction (Z.of_nat wait) a (Debounce.elapse g s0))
    as E1 by (unfold s1, Debounce.burst; now rewrite fold_left_app).
  assert (Debounce.calls (Debounce.elapse g s0) = Debounce.calls s
          /\ (Debounce.pending (Debounce.elapse g s0) = []
              \/ exists d a0, Debounce.armed (Debounce.elapse g s0) d a0)) as [Hc Hp].
  { destruct P as [P | (a0 & P)].
    - destruct (elapse_idle g s0 P) as (P' & C' & _). rewrite C', C. auto.
    - destruct (elapse_armed g _ a0 s0 P ltac:(lia)) as [_ E].
      destruct (_ <? _) eqn:E2; [|apply Z.ltb_ge in E2; lia].
      destruct E as [Har C']. rewrite C', C. eauto. }
  destruct (call_arms (Z.of_nat wait) a _ Hp) as (Har & C1 & N1).
  rewrite <- E1 in Har, C1, N1. rewrite <- N1 in Har.
  destruct (elapse_armed n _ a s1 Har ltac:(lia)) as [_ E].
  split; [now rewrite C1|]. split; intros Hn.
  - destruct (_ <? _) eqn:E2; [|apply Z.ltb_ge in E2; lia].
    destruct E as [_ ->]. now rewrite C1.
  - destruct (_ <? _) eqn:E2; [apply Z.ltb_lt in E2; lia|].
    destruct E as [_ ->]. now rewrite C1, Hc.
Qed.

Lemma debounce_calls_once_after_the_burst_witness :
  let s := Debounce.State 0 None [] 0 ([] : list (Z * nat)) in
  let s1 := Debounce.burst 100 ([(0, 1); (30, 2)] ++ [(99, 3)])%nat s in
  Debounce.calls (Debounce.elapse 250 s1) = [(Debounce.now s1 + 100, 3%nat)].
Proof.
  intros s s1.
  refine (proj2 (proj2
    (debounce_calls_once_after_the_burst 100 [(0, 1); (30, 2)]%nat 99 3%nat s 250
       _ eq_refl _)) _).
  - lia.
  - repeat constructor; simpl; lia.
  - lia.
Defined.

(** ** Viewport test *)

Section ViewportFacts.

Import Viewport.

Local Open Scope Q_scope.

Lemma isInViewport_iff (w : window) (r : rect) :
  isInViewport w r = true
  <-> 0 <= top r /\ 0 <= left r
      /\ bottom r <= inject_Z (or_else (innerHeight w) (clientHeight w))
      /\ right r <= inject_Z (or_else (innerWidth w) (clientWidth w)).
Proof.
  unfold isInViewport. rewrite !andb_true_iff, !Qle_bool_iff. tauto.
Qed.

End ViewportFacts.

(** X19.  [isInViewport] accepts a rectangle exactly when all of it lies
    in the viewport: its top and left are not negative and its bottom and
    right do not exceed the height and width of the viewport, which are
    [innerHeight] and [innerWidth], or the client size of the document
    when these are 0.  So a rectangle reaching above, left of, below or
    right of the viewport is rejected, and whatever lies inside an
    accepted rectangle is accepted too. *)
Theorem in_viewport_is_inherited_by_parts
    (w : Viewport.window) (r r' : Viewport.rect) :
  (Viewport.top r <= Viewport.top r')%Q ->
  (Viewport.left r <= Viewport.left r')%Q ->
  (Viewport.bottom r' <= Viewport.bottom r)%Q ->
  (Viewport.right r' <= Viewport.right r)%Q ->
  let height :=
    if (Viewport.innerHeight w =? 0)%Z then Viewport.clientHeight w
    else Viewport.innerHeight w in
  let width :=
    if (Viewport.innerWidth w =? 0)%Z then Viewport.clientWidth w
    else Viewport.innerWidth w in
  (Viewport.isInViewport w r = true -> Viewport.isInViewport w r' = true)
  /\ ((Viewport.top r' < 0)%Q \/ (Viewport.left r' < 0)%Q ->
      Viewport.isInViewport w r' = false)
  /\ Viewport.isInViewport
       (Viewport.Window 0 0 (Viewport.clientHeight w) (Viewport.clientWidth w)) r
     = Viewport.isInViewport
         (Viewport.Window (Viewport.clientHeight w) (Viewport.clientWidth w) 0 0) r
  /\ (Viewport.isInViewport w r' = true
      <-> (0 <= Viewport.top r' /\ 0 <= Viewport.left r'
           /\ Viewport.bottom r' <= inject_Z height
           /\ Viewport.right r' <= inject_Z width)%Q)
  /\ ((inject_Z height < Viewport.bottom r')%Q
      \/ (inject_Z width < Viewport.right r')%Q ->
      Viewport.isInViewport w r' = false).
Proof.
  intros Ht Hl Hb Hr height width. split; [|split; [|split; [|split]]].
  - rewrite !isInViewport_iff. intros (A & B & C & D).
    split; [exact (Qle_trans _ _ _ A Ht)|].
    split; [exact (Qle_trans _ _ _ B Hl)|].
    split; [exact (Qle_trans _ _ _ Hb C) | exact (Qle_trans _ _ _ Hr D)].
  - intros H. apply not_true_is_false. rewrite isInViewport_iff.
    intros (A & B & _). destruct H as [H|H].
    + exact (Qlt_not_le _ _ H A).
    + exact (Qlt_not_le _ _ H B).
  - unfold Viewport.isInViewport, Viewport.or_else. cbn.
    destruct (Viewport.clientHeight w =? 0)%Z eqn:E1;
      destruct (Viewport.clientWidth w =? 0)%Z eqn:E2;
      rewrite ?Z.eqb_eq in *; rewrite ?E1, ?E2; reflexivity.
  - exact (isInViewport_iff w r').
  - intros H. apply not_true_is_false. rewrite isInViewport_iff.
    intros (_ & _ & C & D). destruct H as [H|H].
    + exact (Qlt_not_le _ _ H C).
    + exact (Qlt_not_le _ _ H D).
Qed.

Lemma in_viewport_is_inherited_by_parts_witness :
  let w := Viewport.Window 800 1200 0 0 in
  Viewport.isInViewport w (Viewport.Rect 100 100 300 400) = true.
Proof.
  intros w.
  refine (proj1 (in_viewport_is_inherited_by_parts w
            (Viewport.Rect 0 0 800 1200) (Viewport.Rect 100 100 300 400) _ _ _ _)
          eq_refl); unfold Qle; simpl; lia.
Defined.

(** ** The source of the hero image *)

Section HeroSource.

Import Hero.

Lemma heroSrc_take_drop (s : ustring) :
  heroSrc s = take (List.length s - 7) (drop 5 s).
Proof.
  unfold heroSrc, slice. cbn [Z.ltb Z.compare].
  set (len := Z.of_nat (List.length s)).
  destruct (Z_lt_le_dec len 7) as [H|H].
  - replace (Z.to_nat (Z.max (Z.max (len + -2) 0 - Z.min 5 len) 0)) with 0%nat by lia.
    replace (List.length s - 7)%nat with 0%nat by lia. reflexivity.
  - replace (Z.to_nat (Z.max (Z.max (len + -2) 0 - Z.min 5 len) 0))
      with (List.length s - 7)%nat by lia.
    replace (Z.to_nat (Z.min 5 len)) with 5%nat by lia. reflexivity.
Qed.

End HeroSource.

(** X20.  The source preloaded for the hero image is the computed
    background image without its first five and last two characters: for
    [url("X")] it is exactly [X], whatever [X]; for a value shorter than
    eight characters, such as [none], it is the empty string. *)
Theorem hero_source_is_the_quoted_url :
  (forall x : ustring,
     Hero.heroSrc (lit "url(" ++ [34%N] ++ x ++ [34%N] ++ lit ")") = x)
  /\ (forall s : ustring,
        List.length (Hero.heroSrc s) = (List.length s - 7)%nat)
  /\ Hero.heroSrc (lit "none") = [].
Proof.
  split; [|split].
  - intros x. rewrite heroSrc_take_drop.
    change (lit "url(" ++ [34%N] ++ x ++ [34%N] ++ lit ")")
      with ([117; 114; 108; 40; 34]%N ++ (x ++ [34; 41]%N)).
    rewrite drop_app_length' by reflexivity.
    rewrite !List.length_app. cbn [List.length].
    replace (5 + (List.length x + 2) - 7)%nat with (List.length x) by lia.
    now rewrite take_app_length.
  - intros s. rewrite heroSrc_take_drop, length_take, length_drop. lia.
  - reflexivity.
Qed.

(** ** The timer table of the slider *)

Section OneTimer.

Import Slider.

Lemma idle_interval (es : list event) (s : state) :
  listening s = false -> timers s = [] ->
  sliderInterval (run es s) = sliderInterval s.
Proof.
  revert s. induction es as [|e es IH]; intros s Hl Ht; [reflexivity|].
  change (run (e :: es) s) with (run es (handle e s)).
  assert (listening (handle e s) = false /\ timers (handle e s) = []
          /\ sliderInterval (handle e s) = sliderInterval s) as (A & B & C).
  { destruct e; cbn [handle]; rewrite ?Hl; cbn [andb]; auto.
    unfold tick. rewrite Ht. cbn. rewrite Ht. auto. }
  rewrite (IH _ A B). exact C.
Qed.

End OneTimer.

(** X21.  Timers of the slider never pile up.  On a page with slides,
    after every sequence of arrow clicks, dot clicks and elapsed
    milliseconds, the timer table holds exactly one timer: the one
    [sliderInterval] names, of period 8000, due within the next 8000 ms.
    On a page without slides there is never a timer and [sliderInterval]
    stays unset. *)
Theorem slider_keeps_one_timer
    (images dots : list element) (t0 : Z) (es : list Slider.event) :
  let s := Slider.run es (Slider.init images dots t0) in
  (images <> [] ->
   exists (id : nat) (d : Z),
     Slider.timers s = [Slider.Timer id 8000 d]
     /\ Slider.sliderInterval s = Some id
     /\ Slider.now s < d <= Slider.now s + 8000)
  /\ (images = [] -> Slider.timers s = [] /\ Slider.sliderInterval s = None).
Proof.
  intros s. split.
  - intros Hi. pose proof (init_running images dots t0 Hi) as R0.
    assert (Slider.now (Slider.init images dots t0) = t0) as N0
      by (unfold Slider.init; destruct images; [congruence | reflexivity]).
    destruct (run_running es _ _ R0 ltac:(lia)) as (d & (_ & id & T & I) & D).
    exists id, d. auto.
  - intros ->. split.
    + now destruct (slider_idle es (Slider.init [] dots t0) eq_refl eq_refl) as (_ & _ & T).
    + exact (idle_interval es (Slider.init [] dots t0) eq_refl eq_refl).
Qed.

Lemma slider_keeps_one_timer_witness :
  let el := Element ∅ ∅ in
  let s := Slider.run [Slider.ArrowRight; Slider.Tick; Slider.ArrowLeft]
                      (Slider.init [el; el] [el; el] 0) in
  exists (id : nat) (d : Z),
    Slider.timers s = [Slider.Timer id 8000 d]
    /\ Slider.sliderInterval s = Some id
    /\ Slider.now s < d <= Slider.now s + 8000.
Proof.
  intros el s.
  refine (proj1 (slider_keeps_one_timer [el; el] [el; el] 0
                   [Slider.ArrowRight; Slider.Tick; Slider.ArrowLeft]) _).
  discriminate.
Defined.

(** ** What a tab click leaves alone *)

Section TabFrame.

Import Layout.

Lemma but_active_refl (e : element) : View.but_active e e.
Proof. split; [reflexivity | tauto]. Qed.

Lemma but_active_trans (e1 e2 e3 : element) :
  View.but_active e1 e2 -> View.but_active e2 e3 -> View.but_active e1 e3.
Proof.
  intros [A1 C1] [A2 C2]. split; [congruence|].
  intros c Hc. now rewrite (C2 c Hc), (C1 c Hc).
Qed.

Lemma but_active_add (e : element) : View.but_active e (classList_add "active" e).
Proof.
  split; [reflexivity|]. intros c Hc. cbn.
  rewrite elem_of_union, elem_of_singleton. tauto.
Qed.

Lemma but_active_remove (e : element) : View.but_active e (classList_remove "active" e).
Proof.
  split; [reflexivity|]. intros c Hc. cbn.
  rewrite elem_of_difference, elem_of_singleton. tauto.
Qed.

Lemma update_but_active (f : element -> element) (n m : nat) (d : nat -> element) :
  (forall e, View.but_active e (f e)) -> View.but_active (d m) (update f n d m).
Proof.
  intros H. unfold update. destruct (decide (m = n)); [apply H | apply but_active_refl].
Qed.

Lemma clear_tabs_but_active (tabs : list nat) (d : nat -> element) (m : nat) :
  View.but_active (d m)
    (fold_left (fun d t => update (classList_remove "active") t d) tabs d m).
Proof.
  revert d. induction tabs as [|t tabs IH]; intros d; [apply but_active_refl|].
  cbn [fold_left]. eapply but_active_trans; [|apply IH].
  apply update_but_active, but_active_remove.
Qed.

Lemma show_displays_but_active lt (displays : list nat) (d : nat -> element) (m : nat) :
  View.but_active (d m) (fold_left (show_display lt) displays d m).
Proof.
  revert d. induction displays as [|x displays IH]; intros d; [apply but_active_refl|].
  cbn [fold_left]. eapply but_active_trans; [|apply IH].
  unfold show_display. destruct (decide _);
    apply update_but_active; [apply but_active_add | apply but_active_remove].
Qed.

End TabFrame.

(** X22.  A click on a layout tab changes nothing but the class [active]:
    every element keeps its attributes and all its other classes, and an
    element that is neither a tab nor a display is left exactly as it
    was; the lists of tabs and displays are the same. *)
Theorem tab_click_touches_only_active (p : Layout.page) (tab n : nat) :
  In tab (Layout.layoutTabs p) ->
  View.but_active (Layout.dom p n) (Layout.dom (Layout.tab_click tab p) n)
  /\ (~ In n (Layout.layoutTabs p) -> ~ In n (Layout.layoutDisplays p) ->
      Layout.dom (Layout.tab_click tab p) n = Layout.dom p n)
  /\ Layout.layoutTabs (Layout.tab_click tab p) = Layout.layoutTabs p
  /\ Layout.layoutDisplays (Layout.tab_click tab p) = Layout.layoutDisplays p.
Proof.
  intros Htab. split; [|split; [|split; reflexivity]].
  - unfold Layout.tab_click. cbn [Layout.dom].
    eapply but_active_trans; [|apply show_displays_but_active].
    eapply but_active_trans; [apply clear_tabs_but_active|].
    apply update_but_active, but_active_add.
  - intros Ht Hd. unfold Layout.tab_click. cbn [Layout.dom].
    destruct (show_displays (getAttribute "data-layout" (Layout.dom p tab))
                (Layout.layoutDisplays p)
                (Layout.update (classList_add "active") tab
                   (fold_left (fun d t => Layout.update (classList_remove "active") t d)
                              (Layout.layoutTabs p) (Layout.dom p))) n) as (_ & _ & C).
    rewrite (C Hd). rewrite update_other by (intros ->; tauto).
    now destruct (clear_tabs (Layout.layoutTabs p) (Layout.dom p) n) as (_ & _ & B);
      rewrite B.
Qed.

Lemma tab_click_touches_only_active_witness :
  let tab_a := Element {[ "data-layout"%string := "theatre"%string ]} ∅ in
  let other := Element ∅ {[ "active"%string ]} in
  let p := Layout.Page
    (fun n => match n with 0%nat => tab_a | _ => other end) [0%nat] [1%nat] in
  Layout.dom (Layout.tab_click 0 p) 7 = Layout.dom p 7.
Proof.
  intros tab_a other p.
  refine (proj1 (proj2 (tab_click_touches_only_active p 0 7 _)) _ _).
  - simpl. auto.
  - simpl. intros [H|[]]. discriminate H.
  - simpl. intros [H|[]]. discriminate H.
Defined.
